(** * Sender analysis of the Gmail analyzer: [analyze_senders.py]

    A shallow embedding of the sender-identity extraction
    ([extract_email_address], [extract_sender_name]) and of the aggregation
    and ranking loop ([analyze_senders]), with the properties the
    specification states about them.

    Python strings are modelled as lists of characters.  A character is a
    code point in U+0000..U+00FF, carried by [ascii]; the character classes
    below ([is_space], [lower_char], [is_word]) are those of CPython 3 on
    that range. *)

From Stdlib Require Import List Ascii String Bool Arith ZArith Lia.
From Stdlib Require Import Sorting.Permutation.
Import ListNotations.

Local Open Scope char_scope.
Local Open Scope list_scope.
Local Open Scope nat_scope.

(* ================================================================= *)
(** ** Python strings *)

Module PyStr.

Definition str := list ascii.

(** A string literal of the source. *)
Definition py (s : string) : str := list_ascii_of_string s.

Definition code (c : ascii) : nat := nat_of_ascii c.

Definition in_range (lo hi n : nat) : bool := (lo <=? n) && (n <=? hi).

(** [str.isspace] on one character: TAB..CR, FS..US, space, NEL, NBSP. *)
Definition is_space (c : ascii) : bool :=
  let n := code c in
  in_range 9 13 n || in_range 28 32 n || (n =? 133) || (n =? 160).

(** [str.lower] on one character: A-Z and the Latin-1 capitals
    U+00C0..U+00DE (the multiplication sign U+00D7 apart). *)
Definition is_upper (c : ascii) : bool :=
  let n := code c in
  in_range 65 90 n || (in_range 192 222 n && negb (n =? 215)).

Definition lower_char (c : ascii) : ascii :=
  if is_upper c then ascii_of_nat (code c + 32) else c.

Definition lower (s : str) : str := map lower_char s.

(** The class [\w] of a [str] pattern: alphanumerics and the underscore. *)
Definition is_word (c : ascii) : bool :=
  let n := code c in
  in_range 48 57 n || in_range 65 90 n || (n =? 95) || in_range 97 122 n
  || (n =? 170) || (n =? 178) || (n =? 179) || (n =? 181) || (n =? 185)
  || (n =? 186) || in_range 188 190 n
  || in_range 192 214 n || in_range 216 246 n || in_range 248 255 n.

Fixpoint lstrip_by (p : ascii -> bool) (s : str) : str :=
  match s with
  | [] => []
  | c :: t => if p c then lstrip_by p t else s
  end.

Definition rstrip_by (p : ascii -> bool) (s : str) : str :=
  rev (lstrip_by p (rev s)).

Definition strip_by (p : ascii -> bool) (s : str) : str :=
  rstrip_by p (lstrip_by p s).

(** [s.strip()] *)
Definition strip (s : str) : str := strip_by is_space s.

Definition mem_char (chars : str) (c : ascii) : bool :=
  existsb (Ascii.eqb c) chars.

(** [s.strip(chars)]: every leading and trailing character that occurs in
    [chars] is removed. *)
Definition strip_chars (chars : str) (s : str) : str :=
  strip_by (mem_char chars) s.

Definition dquote : ascii := "034".
Definition squote : ascii := "'".

Fixpoint str_eqb (a b : str) : bool :=
  match a, b with
  | [], [] => true
  | x :: a', y :: b' => Ascii.eqb x y && str_eqb a' b'
  | _, _ => false
  end.

(** Truthiness of a string: [if s:]. *)
Definition truthy (s : str) : bool :=
  match s with [] => false | _ :: _ => true end.

End PyStr.
Export PyStr.

(* ================================================================= *)
(** ** The three regular expressions of the source

    Each pattern is written as the backtracking matcher the [re] module
    runs: a greedy [X+] first tries to take one more [X] and only then
    gives way to the rest of the pattern. *)

Module Re.

(** The longest prefix of [s] whose characters satisfy [p], and the rest. *)
Fixpoint span (p : ascii -> bool) (s : str) : str * str :=
  match s with
  | [] => ([], [])
  | c :: t => if p c then let (a, b) := span p t in (c :: a, b) else ([], s)
  end.

(** [re.search]: the match at the leftmost start position that has one. *)
Fixpoint search {A : Type} (m : str -> option A) (s : str) : option A :=
  match m s with
  | Some x => Some x
  | None => match s with
            | [] => None
            | _ :: t => search m t
            end
  end.

Definition not_gt (c : ascii) : bool := negb (Ascii.eqb c ">").
Definition not_lt (c : ascii) : bool := negb (Ascii.eqb c "<").

(** [<([^>]+)>] anchored at the head of [s]; the result is group 1.
    [[^>]+] is followed by a literal [>], so only its longest run can be
    followed by the rest of the pattern. *)
Definition angle_at (s : str) : option str :=
  match s with
  | "<" :: t =>
      match span not_gt t with
      | ((_ :: _) as g, ">" :: _) => Some g
      | _ => None
      end
  | _ => None
  end.

(** [^([^<]+)<]: the anchor [^] (no MULTILINE flag) lets [re.search]
    succeed at position 0 only; the result is group 1. *)
Definition name_at_start (s : str) : option str :=
  match span not_lt s with
  | ((_ :: _) as g, "<" :: _) => Some g
  | _ => None
  end.

(** The class [[\w\.-]]. *)
Definition is_addr_char (c : ascii) : bool :=
  is_word c || Ascii.eqb c "." || Ascii.eqb c "-".

(** [\w+] at the head of [s], last item of its pattern: the longest run. *)
Definition word_run (s : str) : option str :=
  match fst (span is_word s) with
  | [] => None
  | w => Some w
  end.

(** [[\w\.-]+\.\w+] at the head of [s]; the result is the matched text. *)
Fixpoint domain_at (s : str) : option str :=
  match s with
  | [] => None
  | c :: t =>
      if is_addr_char c then
        match domain_at t with
        | Some m => Some (c :: m)
        | None =>
            match t with
            | "." :: u => option_map (fun w => c :: "." :: w) (word_run u)
            | _ => None
            end
        end
      else None
  end.

(** [[\w\.-]+@[\w\.-]+\.\w+] at the head of [s]; the result is group 0. *)
Fixpoint email_at (s : str) : option str :=
  match s with
  | [] => None
  | c :: t =>
      if is_addr_char c then
        match email_at t with
        | Some m => Some (c :: m)
        | None =>
            match t with
            | "@" :: d => option_map (fun m => c :: "@" :: m) (domain_at d)
            | _ => None
            end
        end
      else None
  end.

End Re.
Export Re.

(* ================================================================= *)
(** ** Identity extraction *)

(** [extract_email_address(from_field)] *)
Definition extract_email_address (from_field : str) : str :=
  match search angle_at from_field with
  | Some g => lower (strip g)
  | None =>
      match search email_at from_field with
      | Some m => lower (strip m)
      | None => lower (strip from_field)
      end
  end.

(** [extract_sender_name(from_field)] *)
Definition extract_sender_name (from_field : str) : str :=
  match name_at_start from_field with
  | Some g =>
      let name := strip_chars [squote] (strip_chars [dquote] (strip g)) in
      if truthy name then name else extract_email_address from_field
  | None => extract_email_address from_field
  end.

(* ================================================================= *)
(** ** Dictionaries

    A Python [dict] keeps its keys in insertion order, and assigning to a
    key that is present keeps the key where it is.  The ranking depends on
    that order, so a dict is an association list in insertion order. *)

Module Dict.
Section WithValue.
Context {V : Type}.

Definition dict := list (str * V).

(** [d.get(k)], [None] when the key is absent. *)
Fixpoint get (k : str) (d : dict) : option V :=
  match d with
  | [] => None
  | (k', v) :: t => if str_eqb k' k then Some v else get k t
  end.

(** [d.get(k, default)] *)
Definition get_default (k : str) (default : V) (d : dict) : V :=
  match get k d with
  | Some v => v
  | None => default
  end.

(** [d[k] = v] *)
Fixpoint set (k : str) (v : V) (d : dict) : dict :=
  match d with
  | [] => [(k, v)]
  | (k', v') :: t =>
      if str_eqb k' k then (k', v) :: t else (k', v') :: set k v t
  end.

(** [d.items()], in insertion order. *)
Definition items (d : dict) : list (str * V) := d.

Definition keys (d : dict) : list str := map fst d.
End WithValue.
Arguments dict V : clear implicits.
End Dict.

(* ================================================================= *)
(** ** Aggregation and ranking *)

(** One email record of [emails.json]: a dict; only string-valued fields
    are read here. *)
Definition email := Dict.dict str.

(** [sender_info]: email -> (name, count). *)
Definition sender_info_t := Dict.dict (str * nat).

(** A row of the result: (email, name, count). *)
Definition sender_row := (str * str * nat)%type.

Definition row_email (r : sender_row) : str := fst (fst r).
Definition row_name (r : sender_row) : str := snd (fst r).
Definition row_count (r : sender_row) : nat := snd r.

(** [email.get('from', '')] *)
Definition from_field_of (e : email) : str :=
  Dict.get_default (py "from") [] e.

(** The body of the [for email in emails] loop. *)
Definition tally (sender_info : sender_info_t) (e : email) : sender_info_t :=
  let from_field := from_field_of e in
  if negb (truthy from_field) then sender_info
  else
    let email_addr := extract_email_address from_field in
    let name := extract_sender_name from_field in
    match Dict.get email_addr sender_info with
    | Some info => Dict.set email_addr (fst info, snd info + 1) sender_info
    | None => Dict.set email_addr (name, 1) sender_info
    end.

Definition collect (emails : list email) : sender_info_t :=
  fold_left tally emails [].

Section Sorted.
Context {A : Type} (key : A -> nat).

(** [x] goes after the items with a larger key and before the others:
    [x] came first in the input, so it stays ahead of its equals. *)
Fixpoint insert_desc (x : A) (l : list A) : list A :=
  match l with
  | [] => [x]
  | y :: t => if key x <? key y then y :: insert_desc x t else x :: l
  end.

(** [sorted(l, key=key, reverse=True)].  [sorted] is stable, also with
    [reverse=True]. *)
Definition sorted_reverse (l : list A) : list A :=
  fold_right insert_desc [] l.
End Sorted.

(** [l[:n]]: a negative [n] counts from the end. *)
Definition slice_to {A : Type} (n : Z) (l : list A) : list A :=
  if (0 <=? n)%Z then firstn (Z.to_nat n) l
  else firstn (List.length l - Z.to_nat (- n)) l.

Definition info_count (x : str * (str * nat)) : nat := snd (snd x).

(** [sorted_senders] *)
Definition sorted_senders (emails : list email) : list (str * (str * nat)) :=
  sorted_reverse info_count (Dict.items (collect emails)).

Definition to_row (x : str * (str * nat)) : sender_row :=
  (fst x, fst (snd x), snd (snd x)).

(** [analyze_senders(emails, top_n)] *)
Definition analyze_senders (emails : list email) (top_n : Z) : list sender_row :=
  map to_row (slice_to top_n (sorted_senders emails)).

(** The outcome of a call: a returned value or a raised exception.
    [analyze_senders] has no [raise], and nothing it does to a list of
    dicts with string fields raises. *)
Inductive outcome (A : Type) : Type :=
| Returned (a : A)
| Raised.
Arguments Returned {A} a.
Arguments Raised {A}.

Definition call_analyze_senders (emails : list email) (top_n : Z)
  : outcome (list sender_row) :=
  Returned (analyze_senders emails top_n).

(* ================================================================= *)
(** ** Vocabulary of the statements *)

(** An email record whose only field is ['from']. *)
Definition mail_of (from_field : str) : email := [(py "from", from_field)].

Definition mail (from_field : string) : email := mail_of (py from_field).

(** The records the loop does not skip. *)
Definition counted (emails : list email) : list email :=
  filter (fun e => truthy (from_field_of e)) emails.

(** The normalized address of each counted record, in input order. *)
Definition addresses (emails : list email) : list str :=
  map (fun e => extract_email_address (from_field_of e)) (counted emails).

(** Position of the first occurrence of [a] ([length l] when absent). *)
Fixpoint first_index (a : str) (l : list str) : nat :=
  match l with
  | [] => 0
  | x :: t => if str_eqb x a then 0 else S (first_index a t)
  end.

(** The first counted record whose address is [a]. *)
Definition first_with (a : str) (emails : list email) : option email :=
  find (fun e => str_eqb (extract_email_address (from_field_of e)) a)
       (counted emails).

Definition occurrences (a : str) (l : list str) : nat :=
  List.length (filter (str_eqb a) l).

Definition distinct (l : list str) : list str :=
  nodup (list_eq_dec ascii_dec) l.

Definition sum_counts (rows : list sender_row) : nat :=
  fold_right (fun r acc => row_count r + acc) 0 rows.

Definition has_char (c : ascii) (s : str) : bool := existsb (Ascii.eqb c) s.

(** The text strictly between the first [<] of [s] and the next [>]. *)
Definition between_first_angle (s : str) : option str :=
  match snd (span not_lt s) with
  | "<" :: t =>
      match span not_gt t with
      | (g, ">" :: _) => Some g
      | _ => None
      end
  | _ => None
  end.

(** The address as the specification words it for a header with angle
    brackets: the text between the first [<] and the next [>], trimmed and
    lowercased. *)
Definition spec_bracket_address (s : str) : option str :=
  option_map (fun g => lower (strip g)) (between_first_angle s).

(** Every [<] of [s] is directly followed by [>]. *)
Fixpoint only_empty_brackets (s : str) : bool :=
  match s with
  | [] => true
  | c :: t =>
      if Ascii.eqb c "<" then
        match t with
        | c' :: _ => Ascii.eqb c' ">" && only_empty_brackets t
        | [] => false
        end
      else only_empty_brackets t
  end.

(** The text before the first [<] of [s]. *)
Definition before_first_angle (s : str) : option str :=
  match span not_lt s with
  | (g, "<" :: _) => Some g
  | _ => None
  end.

Definition is_quote (c : ascii) : bool :=
  Ascii.eqb c dquote || Ascii.eqb c squote.

(** One layer of surrounding quotes removed, when there is one. *)
Definition strip_one_quote_layer (s : str) : str :=
  match s with
  | q :: t =>
      match rev t with
      | q' :: m => if is_quote q && Ascii.eqb q q' then rev m else s
      | [] => s
      end
  | [] => []
  end.

(** The display name as the specification words it: the text before the
    first [<], trimmed, then one layer of quotes removed. *)
Definition spec_display_name (s : str) : option str :=
  option_map (fun g => strip_one_quote_layer (strip g)) (before_first_angle s).

(** The display name as the source computes it from the text before the
    first [<]. *)
Definition unquoted_name (g : str) : str :=
  strip_chars [squote] (strip_chars [dquote] (strip g)).


(** [m] does not begin, or does not end, with a character of class [p]. *)
Definition starts_clean (p : ascii -> bool) (m : str) : bool :=
  match m with
  | [] => true
  | c :: _ => negb (p c)
  end.

Definition ends_clean (p : ascii -> bool) (m : str) : bool :=
  starts_clean p (rev m).

Definition is_blank_or_quote (c : ascii) : bool := is_space c || is_quote c.

(** A header that is an address and nothing else: after trimming, no white
    space and no angle bracket, one [@] with text on both sides, and a dot
    in the domain. *)
Definition bare_address (h : str) : bool :=
  let t := strip h in
  forallb (fun c => negb (is_space c || Ascii.eqb c "<" || Ascii.eqb c ">")) t
  && match span (fun c => negb (Ascii.eqb c "@")) t with
     | (_ :: _, "@" :: d) => negb (has_char "@" d) && has_char "." d
     | _ => false
     end.

(** The trimmed header is one match of the address pattern, whole. *)
Definition pattern_address (h : str) : Prop :=
  email_at (strip h) = Some (strip h).

(** [x] occurs before [y] in [l]. *)
Definition before {A : Type} (x y : A) (l : list A) : Prop :=
  exists l1 l2 l3, l = l1 ++ x :: l2 ++ y :: l3.

(** [rows] is ranked: counts never increase along it, and of two rows with
    the same count the one whose address was met first in [addrs] comes
    first. *)
Definition ranked (addrs : list str) (rows : list sender_row) : Prop :=
  forall i j x y,
    i < j -> nth_error rows i = Some x -> nth_error rows j = Some y ->
    row_count y <= row_count x /\
    (row_count x = row_count y ->
     first_index (row_email x) addrs < first_index (row_email y) addrs).

(** Keys never increase along [l]. *)
Definition descending {A : Type} (key : A -> nat) (l : list A) : Prop :=
  forall a b, before a b l -> key b <= key a.

Definition total_count (d : sender_info_t) : nat :=
  fold_right (fun x acc => info_count x + acc) 0 d.

(** What the loop maintains: after the records [emails], the dict [d]
    holds one entry per address met, in the order the addresses were first
    met, each with the name of its first record and the number of its
    records. *)
Record collect_inv (emails : list email) (d : sender_info_t) : Prop := {
  inv_nodup : NoDup (Dict.keys d);
  inv_keys : forall a, In a (Dict.keys d) <-> In a (addresses emails);
  inv_info : forall a n c, In (a, (n, c)) d ->
      c = occurrences a (addresses emails) /\
      exists e, first_with a emails = Some e /\
                n = extract_sender_name (from_field_of e);
  inv_order : forall a b, before a b (Dict.keys d) ->
      first_index a (addresses emails) < first_index b (addresses emails);
  inv_total : total_count d = List.length (addresses emails)
}.

(** ** Inputs of the examples *)

(** The scenario of the specification. *)
Definition scenario : list email :=
  map mail ["Alice <a@x.com>"; "a@x.com"; "Bob <b@x.com>"; "Alice <a@x.com>"]%string.

(** One address under two names. *)
Definition two_names : list email :=
  map mail ["Alice <a@x.com>"; "Bob <b@x.com>"; "Al <A@X.com>"]%string.

(** A name inside two layers of double quotes. *)
Definition twice_quoted : str :=
  [dquote; dquote] ++ py "Bob" ++ [dquote; dquote] ++ py " <b@x.com>".

(* ================================================================= *)
(** ** Reporting: [display_results], [save_results], [main]

    Printing is left out; what is modelled is the data each function
    computes before it prints or writes.  The percentages are floating
    point and are not modelled. *)

Module Report.

(** [enumerate(l, start)] *)
Fixpoint enumerate {A : Type} (start : nat) (l : list A) : list (nat * A) :=
  match l with
  | [] => []
  | x :: t => (start, x) :: enumerate (S start) t
  end.

(** [name[:28] + ".." if len(name) > 30 else name] *)
Definition display_name (name : str) : str :=
  if 30 <? List.length name then firstn 28 name ++ py ".." else name.

(** A line of the table: rank, count, shown name, address. *)
Definition table_line (x : nat * sender_row) : nat * nat * str * str :=
  (fst x, row_count (snd x), display_name (row_name (snd x)),
   row_email (snd x)).

(** The lines [display_results] prints, and [total_from_top]. *)
Definition display_results (top_senders : list sender_row)
  : list (nat * nat * str * str) * nat :=
  (map table_line (enumerate 1 top_senders), sum_counts top_senders).

(** An object of [sender_analysis.json]. *)
Record saved : Type := {
  rank : nat;
  saved_email : str;
  saved_name : str;
  saved_count : nat
}.

Definition to_saved (x : nat * sender_row) : saved :=
  {| rank := fst x;
     saved_email := row_email (snd x);
     saved_name := row_name (snd x);
     saved_count := row_count (snd x) |}.

(** The list [save_results] dumps. *)
Definition save_results (top_senders : list sender_row) : list saved :=
  map to_saved (enumerate 1 top_senders).

Definition saved_row (s : saved) : sender_row :=
  (saved_email s, saved_name s, saved_count s).

(** [main], from the loaded list on: nothing when the list is empty,
    otherwise the table, the total of the table, the total it is measured
    against ([len(emails)]) and the saved list. *)
Definition main (emails : list email)
  : option (list (nat * nat * str * str) * nat * nat * list saved) :=
  match emails with
  | [] => None
  | _ :: _ =>
      let top_senders := analyze_senders emails 20 in
      let (lines, total_from_top) := display_results top_senders in
      Some (lines, total_from_top, List.length emails, save_results top_senders)
  end.

End Report.

(* ================================================================= *)
(** ** [delete_updates.py] *)

Module DeleteUpdates.

(** A record of [emails.json] as this script reads it; [None] is a key
    that is absent. *)
Record message : Type := {
  msg_id : str;
  msg_labels : option (list str);
  msg_date : option str
}.

(** A [datetime]: naive or timezone-aware, and its position in time (wall
    clock when naive, UTC when aware). *)
Record datetime : Type := {
  aware : bool;
  ticks : Z
}.

(** [a < b] on datetimes: a naive and an aware one do not compare, the
    comparison raises [TypeError]. *)
Definition dt_lt (a b : datetime) : outcome bool :=
  if Bool.eqb (aware a) (aware b) then Returned (ticks a <? ticks b)%Z
  else Raised.

Definition CATEGORY_UPDATES : str := py "CATEGORY_UPDATES".

(** ['CATEGORY_UPDATES' in email.get('labels', [])] *)
Definition in_updates (email : message) : bool :=
  existsb (str_eqb CATEGORY_UPDATES)
          (match msg_labels email with Some l => l | None => [] end).

(** [email.get('date', '')] *)
Definition date_of (email : message) : str :=
  match msg_date email with Some d => d | None => [] end.

Section Filter.
(** [email.utils.parsedate_to_datetime]; [None] when it raises. *)
Variable parsedate_to_datetime : str -> option datetime.

(** [parse_email_date]: the exception is caught and [None] returned. *)
Definition parse_email_date (date_str : str) : option datetime :=
  parsedate_to_datetime date_str.

(** The body of the loop of [filter_updates_before_date]; a raised
    exception ends the call. *)
Definition select (cutoff_date : datetime)
    (acc : outcome (list message)) (email : message)
  : outcome (list message) :=
  match acc with
  | Raised => Raised
  | Returned emails_to_delete =>
      if negb (in_updates email) then Returned emails_to_delete
      else
        match parse_email_date (date_of email) with
        | None => Returned emails_to_delete
        | Some email_date =>
            match dt_lt email_date cutoff_date with
            | Raised => Raised
            | Returned true => Returned (emails_to_delete ++ [email])
            | Returned false => Returned emails_to_delete
            end
        end
  end.

(** [filter_updates_before_date(emails, cutoff_date)] *)
Definition filter_updates_before_date
    (emails : list message) (cutoff_date : datetime)
  : outcome (list message) :=
  fold_left (select cutoff_date) emails (Returned []).

(** The email is in Updates and its date parses to a datetime that
    compares with the cutoff and lies before it. *)
Definition selected (cutoff_date : datetime) (email : message) : bool :=
  in_updates email &&
  match parse_email_date (date_of email) with
  | Some d => Bool.eqb (aware d) (aware cutoff_date)
              && (ticks d <? ticks cutoff_date)%Z
  | None => false
  end.

(** The email is in Updates and its date parses to a datetime that does
    not compare with the cutoff. *)
Definition incomparable (cutoff_date : datetime) (email : message) : bool :=
  in_updates email &&
  match parse_email_date (date_of email) with
  | Some d => negb (Bool.eqb (aware d) (aware cutoff_date))
  | None => false
  end.
End Filter.

(** [range(0, stop, step)]: [None] is the [ValueError] of a zero step. *)
Definition range0 (stop : nat) (step : Z) : option (list nat) :=
  if (step =? 0)%Z then None
  else if (step <? 0)%Z then Some []
  else
    let s := Z.to_nat step in
    Some (map (fun k => k * s) (seq 0 ((stop + s - 1) / s))).

(** [l[i:i + n]] for [0 <= i] and [0 < n]. *)
Definition slice {A : Type} (i n : nat) (l : list A) : list A :=
  firstn n (skipn i l).

(** What a call of [delete_emails_batch] leaves behind: the count it
    returns, the count of failures it prints, and the batches it sent to
    the service, in order. *)
Record deletion : Type := {
  deleted_count : nat;
  failed_count : nat;
  sent : list (list str)
}.

Section Batch.
(** The service: whether the [n]-th [batchDelete] call, on the ids given,
    goes through ([true]) or raises [HttpError] ([false]). *)
Variable batchDelete : nat -> list str -> bool.

(** The body of the loop over the batches. *)
Definition send_batch (email_ids : list str) (batch_size : nat)
    (st : deletion) (i : nat) : deletion :=
  let batch := slice i batch_size email_ids in
  if batchDelete (List.length (sent st)) batch then
    {| deleted_count := deleted_count st + List.length batch;
       failed_count := failed_count st;
       sent := sent st ++ [batch] |}
  else
    {| deleted_count := deleted_count st;
       failed_count := failed_count st + List.length batch;
       sent := sent st ++ [batch] |}.

Definition nothing_sent : deletion :=
  {| deleted_count := 0; failed_count := 0; sent := [] |}.

(** The state after the first [m] batches, the batches themselves, and
    the number of ids in the batches of a log that the service accepts. *)
Definition after_batches (email_ids : list str) (batch_size : nat) (m : nat)
  : deletion :=
  fold_left (send_batch email_ids batch_size)
            (map (fun k => k * batch_size) (seq 0 m)) nothing_sent.

Definition first_batches (email_ids : list str) (batch_size : nat) (m : nat)
  : list (list str) :=
  map (fun k => slice (k * batch_size) batch_size email_ids) (seq 0 m).

Definition accepted_ids (log : list (list str)) : nat :=
  list_sum (map (fun x => List.length (snd x))
                (filter (fun x => batchDelete (fst x) (snd x))
                        (Report.enumerate 0 log))).

(** [delete_emails_batch(service, email_ids, batch_size, dry_run)] *)
Definition delete_emails_batch (email_ids : list str) (batch_size : Z)
    (dry_run : bool) : outcome deletion :=
  match email_ids with
  | [] => Returned nothing_sent
  | _ :: _ =>
      if dry_run then Returned nothing_sent
      else
        match range0 (List.length email_ids) batch_size with
        | None => Raised
        | Some starts =>
            Returned (fold_left (send_batch email_ids (Z.to_nat batch_size))
                                starts nothing_sent)
        end
  end.
End Batch.

(** *** Inputs of the examples *)

(** A stand-in for the date parser: every date parses, to a naive datetime
    placed by the length of its text. *)
Definition length_parser (date_str : str) : option datetime :=
  Some {| aware := false; ticks := Z.of_nat (List.length date_str) |}.

Definition naive_cutoff : datetime := {| aware := false; ticks := 5 |}.

Definition old_update : message :=
  {| msg_id := py "m1";
     msg_labels := Some [py "INBOX"; CATEGORY_UPDATES];
     msg_date := Some (py "old") |}.

Definition mailbox : list message :=
  [ {| msg_id := py "m0"; msg_labels := Some [py "INBOX"];
       msg_date := Some (py "old") |};
    old_update;
    {| msg_id := py "m2"; msg_labels := Some [CATEGORY_UPDATES];
       msg_date := Some (py "a later date") |};
    {| msg_id := py "m3"; msg_labels := None; msg_date := None |} ].

End DeleteUpdates.

(* ================================================================= *)
(** ** [gmail_fetcher.py]: the listing of the message ids *)

Module Fetcher.
Section Listing.
Context {msg : Type}.

(** What [request.execute()] gives: a response, with or without the key
    ['messages'], or an [HttpError]. *)
Inductive response : Type :=
| Page (messages : option (list msg))
| HttpError.

(** [if max_results]: [None] and 0 are false. *)
Definition limited (max_results : option Z) : option Z :=
  match max_results with
  | Some n => if (n =? 0)%Z then None else Some n
  | None => None
  end.

(** The [while request is not None] loop: [resp] is what the current
    request gives and [later] what the following requests would give, the
    last of them having no next page.  An [HttpError] leaves the loop and
    the function returns the empty list. *)
Fixpoint listing (max_results : option Z) (messages : list msg)
    (resp : response) (later : list response) : list msg :=
  match resp with
  | HttpError => []
  | Page found =>
      let messages :=
        match found with
        | Some l => messages ++ l
        | None => messages
        end in
      let continue :=
        match later with
        | [] => messages
        | r :: rest => listing max_results messages r rest
        end in
      match limited max_results with
      | Some n =>
          if (n <=? Z.of_nat (List.length messages))%Z
          then slice_to n messages
          else continue
      | None => continue
      end
  end.

(** [get_all_messages(service, max_results=max_results)] *)
Definition get_all_messages (resp : response) (later : list response)
    (max_results : option Z) : list msg :=
  listing max_results [] resp later.

(** The list after [messages.extend(...)], done when the response has
    the key. *)
Definition collected (acc : list msg) (resp : response) : list msg :=
  match resp with
  | Page (Some l) => acc ++ l
  | _ => acc
  end.

Definition found_in (r : response) : list msg :=
  match r with
  | Page (Some l) => l
  | _ => []
  end.

Definition failed (r : response) : bool :=
  match r with
  | HttpError => true
  | Page _ => false
  end.

(** Every message of the responses, in order. *)
Definition all_found (rs : list response) : list msg :=
  List.concat (map found_in rs).
End Listing.
Arguments response msg : clear implicits.
End Fetcher.

(* ================================================================= *)
(** * Proofs *)

(** ** Strings and dictionaries *)

Lemma str_eqb_eq (a b : str) : str_eqb a b = true <-> a = b.
Proof.
  revert b; induction a as [|x a IH]; intros [|y b]; simpl;
    try (split; [discriminate | congruence]); try tauto.
  rewrite andb_true_iff, Ascii.eqb_eq, IH.
  split; [intros [-> ->]; reflexivity | intros E; inversion E; auto].
Qed.

Lemma str_eqb_refl (a : str) : str_eqb a a = true.
Proof. apply str_eqb_eq; reflexivity. Qed.

Lemma str_eqb_neq (a b : str) : str_eqb a b = false <-> a <> b.
Proof.
  rewrite <- str_eqb_eq. destruct (str_eqb a b); split; congruence.
Qed.

Ltac str_cases a b :=
  let E := fresh "E" in
  destruct (str_eqb a b) eqn:E;
  [apply str_eqb_eq in E; try subst | apply str_eqb_neq in E].

Section DictFacts.
Context {V : Type}.
Implicit Types (d : Dict.dict V) (k : str) (v : V).

Lemma get_None_iff k d : Dict.get k d = None <-> ~ In k (Dict.keys d).
Proof.
  induction d as [|[k' v'] d IH]; simpl; [tauto|].
  str_cases k' k.
  - split; [discriminate | intros H; exfalso; apply H; auto].
  - rewrite IH; tauto.
Qed.

Lemma In_get k v d : NoDup (Dict.keys d) -> In (k, v) d -> Dict.get k d = Some v.
Proof.
  induction d as [|[k' v'] d IH]; simpl; [tauto|].
  intros ND [E | HI].
  - inversion E; subst. rewrite str_eqb_refl; reflexivity.
  - inversion ND; subst. str_cases k' k.
    + exfalso. apply H1. apply (in_map fst) in HI; exact HI.
    + auto.
Qed.

Lemma set_absent k v d : Dict.get k d = None -> Dict.set k v d = d ++ [(k, v)].
Proof.
  induction d as [|[k' v'] d IH]; simpl; [reflexivity|].
  str_cases k' k; [discriminate | intros H; rewrite IH by exact H; reflexivity].
Qed.

Lemma set_present k v v0 d :
  Dict.get k d = Some v0 ->
  exists d1 d2, d = d1 ++ (k, v0) :: d2 /\ Dict.set k v d = d1 ++ (k, v) :: d2.
Proof.
  induction d as [|[k' v'] d IH]; simpl; [discriminate|].
  str_cases k' k.
  - intros [= ->]. exists [], d; auto.
  - intros H. destruct (IH H) as (d1 & d2 & -> & ->).
    exists ((k', v') :: d1), d2; auto.
Qed.
End DictFacts.

Lemma keys_app {V} (d1 d2 : Dict.dict V) :
  Dict.keys (d1 ++ d2) = Dict.keys d1 ++ Dict.keys d2.
Proof. apply map_app. Qed.

(** ** Occurrences and first positions *)

Lemma occurrences_app a l1 l2 :
  occurrences a (l1 ++ l2) = occurrences a l1 + occurrences a l2.
Proof. unfold occurrences. rewrite filter_app, length_app; reflexivity. Qed.

Lemma occurrences_pos a l : In a l -> 1 <= occurrences a l.
Proof.
  unfold occurrences. induction l as [|x l IH]; simpl; [tauto|].
  intros [-> | H].
  - rewrite str_eqb_refl; simpl; lia.
  - destruct (str_eqb a x); simpl; auto with arith.
Qed.

Lemma first_index_app_in a l1 l2 :
  In a l1 -> first_index a (l1 ++ l2) = first_index a l1.
Proof.
  induction l1 as [|x l1 IH]; simpl; [tauto|].
  intros H. str_cases x a; [reflexivity|].
  destruct H as [H | H]; [congruence | rewrite IH by exact H; reflexivity].
Qed.

Lemma first_index_app_out a l1 l2 :
  ~ In a l1 -> first_index a (l1 ++ l2) = List.length l1 + first_index a l2.
Proof.
  induction l1 as [|x l1 IH]; simpl; [reflexivity|].
  intros H. str_cases x a; [exfalso; auto|].
  rewrite IH; [reflexivity | tauto].
Qed.

Lemma first_index_lt a l : In a l -> first_index a l < List.length l.
Proof.
  induction l as [|x l IH]; simpl; [tauto|].
  intros H. str_cases x a; [lia|].
  destruct H as [H | H]; [congruence | apply IH in H; lia].
Qed.

Lemma find_app_found {A} (p : A -> bool) l1 l2 x :
  find p l1 = Some x -> find p (l1 ++ l2) = Some x.
Proof.
  induction l1 as [|y l1 IH]; simpl; [discriminate|].
  destruct (p y); auto.
Qed.

Lemma find_app_none {A} (p : A -> bool) l1 l2 :
  find p l1 = None -> find p (l1 ++ l2) = find p l2.
Proof.
  induction l1 as [|y l1 IH]; simpl; [reflexivity|].
  destruct (p y); [discriminate | auto].
Qed.

(** ** [before] *)

Lemma before_app_l {A} (x y : A) l1 l2 : before x y l1 -> before x y (l1 ++ l2).
Proof.
  intros (a & b & c & ->). exists a, b, (c ++ l2).
  rewrite <- !app_assoc; simpl. rewrite <- app_assoc; reflexivity.
Qed.

Lemma before_cons {A} (x y z : A) l : before x y l -> before x y (z :: l).
Proof. intros (a & b & c & ->). exists (z :: a), b, c; reflexivity. Qed.

Lemma before_head {A} (x y : A) l : In y l -> before x y (x :: l).
Proof.
  intros H. apply in_split in H as (b & c & ->). exists [], b, c; reflexivity.
Qed.

Lemma before_inv_cons {A} (x y z : A) l :
  before x y (z :: l) -> (x = z /\ In y l) \/ before x y l.
Proof.
  intros ([|a0 a] & b & c & E); simpl in E; inversion E; subst.
  - left; split; [reflexivity | apply in_or_app; right; left; reflexivity].
  - right; exists a, b, c; reflexivity.
Qed.

Lemma before_snoc_inv {A} (x y z : A) l :
  before x y (l ++ [z]) -> before x y l \/ (In x l /\ y = z).
Proof.
  induction l as [|w l IH]; simpl; intros H.
  - destruct H as ([|? [|? ?]] & ? & ? & E); simpl in E; inversion E;
      match goal with H : [] = _ ++ _ :: _ |- _ =>
        apply app_cons_not_nil in H; contradiction end.
  - apply before_inv_cons in H as [[-> H] | H].
    + apply in_app_or in H as [H | [<- | []]].
      * left; apply before_head; exact H.
      * right; split; [left|]; reflexivity.
    + apply IH in H as [H | [H ->]].
      * left; apply before_cons; exact H.
      * right; split; [right; exact H | reflexivity].
Qed.

Lemma before_In {A} (x y : A) l : before x y l -> In x l /\ In y l.
Proof.
  intros (a & b & c & ->). split; apply in_or_app; right.
  - left; reflexivity.
  - right; apply in_or_app; right; left; reflexivity.
Qed.

Lemma before_map {A B} (f : A -> B) x y l :
  before x y l -> before (f x) (f y) (map f l).
Proof.
  intros (a & b & c & ->). exists (map f a), (map f b), (map f c).
  rewrite map_app; simpl; rewrite map_app; reflexivity.
Qed.

Lemma before_firstn {A} (x y : A) n l : before x y (firstn n l) -> before x y l.
Proof.
  intros H. rewrite <- (firstn_skipn n l). apply before_app_l; exact H.
Qed.

Lemma nth_error_before {A} (l : list A) i j x y :
  i < j -> nth_error l i = Some x -> nth_error l j = Some y -> before x y l.
Proof.
  revert i j; induction l as [|z l IH]; intros i j Hij Hi Hj.
  - destruct i; discriminate.
  - destruct j as [|j]; [lia|]. destruct i as [|i]; simpl in *.
    + inversion Hi; subst. apply before_head. eapply nth_error_In; eauto.
    + apply before_cons. apply (IH i j); auto; lia.
Qed.

(** ** The loop invariant *)

Lemma collect_snoc es e : collect (es ++ [e]) = tally (collect es) e.
Proof. unfold collect. rewrite fold_left_app; reflexivity. Qed.

Lemma counted_snoc es e :
  counted (es ++ [e]) =
  counted es ++ (if truthy (from_field_of e) then [e] else []).
Proof. unfold counted. rewrite filter_app; reflexivity. Qed.

Lemma addresses_snoc es e :
  addresses (es ++ [e]) =
  addresses es ++
  (if truthy (from_field_of e)
   then [extract_email_address (from_field_of e)] else []).
Proof.
  unfold addresses. rewrite counted_snoc, map_app.
  destruct (truthy (from_field_of e)); reflexivity.
Qed.

Lemma occurrences_notin a l : ~ In a l -> occurrences a l = 0.
Proof.
  unfold occurrences. induction l as [|x l IH]; simpl; [reflexivity|].
  intros H. str_cases a x; [exfalso; auto | apply IH; tauto].
Qed.

Lemma occurrences_snoc_neq a b l :
  a <> b -> occurrences a (l ++ [b]) = occurrences a l.
Proof.
  intros N. rewrite occurrences_app. unfold occurrences; simpl.
  apply str_eqb_neq in N; rewrite N; simpl; lia.
Qed.

Lemma occurrences_snoc_eq a l :
  occurrences a (l ++ [a]) = occurrences a l + 1.
Proof.
  rewrite occurrences_app. unfold occurrences; simpl.
  rewrite str_eqb_refl; reflexivity.
Qed.

Lemma first_with_notin a es : ~ In a (addresses es) -> first_with a es = None.
Proof.
  unfold first_with, addresses. induction (counted es) as [|e l IH]; simpl;
    [reflexivity|].
  intros H. str_cases (extract_email_address (from_field_of e)) a.
  - exfalso; auto.
  - apply IH; tauto.
Qed.

Lemma total_count_app d1 d2 :
  total_count (d1 ++ d2) = total_count d1 + total_count d2.
Proof.
  unfold total_count. induction d1 as [|x d1 IH]; simpl; [reflexivity|].
  rewrite IH; lia.
Qed.

Lemma keys_split_neq {V} (d1 d2 : Dict.dict V) k v a w :
  NoDup (Dict.keys (d1 ++ (k, v) :: d2)) -> In (a, w) (d1 ++ d2) -> a <> k.
Proof.
  intros ND HI ->. rewrite keys_app in ND; simpl in ND.
  apply NoDup_remove_2 in ND. apply ND.
  unfold Dict.keys; rewrite <- map_app.
  apply (in_map fst) in HI; exact HI.
Qed.

Lemma collect_inv_nil : collect_inv [] [].
Proof.
  split; simpl.
  - constructor.
  - tauto.
  - tauto.
  - intros a b ([|? ?] & ? & ? & E); discriminate.
  - reflexivity.
Qed.

Lemma collect_inv_skip es e d :
  truthy (from_field_of e) = false ->
  collect_inv es d -> collect_inv (es ++ [e]) (tally d e).
Proof.
  intros T [I1 I2 I3 I4 I5].
  assert (EA : addresses (es ++ [e]) = addresses es)
    by (rewrite addresses_snoc, T; apply app_nil_r).
  assert (EC : counted (es ++ [e]) = counted es)
    by (rewrite counted_snoc, T; apply app_nil_r).
  unfold tally; rewrite T; simpl.
  split; unfold first_with; rewrite ?EA, ?EC; auto.
Qed.

Lemma collect_inv_present es e d info :
  truthy (from_field_of e) = true ->
  Dict.get (extract_email_address (from_field_of e)) d = Some info ->
  collect_inv es d ->
  collect_inv (es ++ [e])
    (Dict.set (extract_email_address (from_field_of e))
              (fst info, snd info + 1) d).
Proof.
  intros T G [I1 I2 I3 I4 I5].
  set (a0 := extract_email_address (from_field_of e)) in *.
  assert (EA : addresses (es ++ [e]) = addresses es ++ [a0])
    by (rewrite addresses_snoc, T; reflexivity).
  assert (EC : counted (es ++ [e]) = counted es ++ [e])
    by (rewrite counted_snoc, T; reflexivity).
  destruct (set_present a0 (fst info, snd info + 1) info d G)
    as (d1 & d2 & Ed & ->).
  assert (EK : Dict.keys (d1 ++ (a0, (fst info, snd info + 1)) :: d2)
               = Dict.keys d) by (rewrite Ed, !keys_app; reflexivity).
  assert (Ha0 : In a0 (addresses es)).
  { apply I2. rewrite Ed, keys_app. apply in_or_app; right; left; reflexivity. }
  split; rewrite ?EK, ?EA.
  - exact I1.
  - intros a. rewrite I2, in_app_iff; simpl. intuition (subst; auto).
  - intros a n c HI.
    assert (OLD : forall a' n' c', In (a', (n', c')) d ->
              exists e', first_with a' (es ++ [e]) = Some e' /\
                         n' = extract_sender_name (from_field_of e')).
    { intros a' n' c' H. destruct (I3 _ _ _ H) as (_ & e' & F & ->).
      exists e'; split; [|reflexivity].
      unfold first_with in *; rewrite EC. apply find_app_found; exact F. }
    apply in_app_or in HI as [HI | [HI | HI]].
    + assert (N : a <> a0).
      { eapply (keys_split_neq d1 d2); [rewrite <- Ed; exact I1|].
        apply in_or_app; left; exact HI. }
      assert (HI' : In (a, (n, c)) d)
        by (rewrite Ed; apply in_or_app; left; exact HI).
      split; [|eapply OLD; exact HI'].
      destruct (I3 _ _ _ HI') as (-> & _).
      symmetry; apply occurrences_snoc_neq; exact N.
    + inversion HI; subst a n c; clear HI.
      assert (HI' : In (a0, (fst info, snd info)) d).
      { rewrite Ed. apply in_or_app; right; left. destruct info; reflexivity. }
      split; [|eapply OLD; exact HI'].
      destruct (I3 _ _ _ HI') as (-> & _).
      symmetry; apply occurrences_snoc_eq.
    + assert (N : a <> a0).
      { eapply (keys_split_neq d1 d2); [rewrite <- Ed; exact I1|].
        apply in_or_app; right; exact HI. }
      assert (HI' : In (a, (n, c)) d)
        by (rewrite Ed; apply in_or_app; right; right; exact HI).
      split; [|eapply OLD; exact HI'].
      destruct (I3 _ _ _ HI') as (-> & _).
      symmetry; apply occurrences_snoc_neq; exact N.
  - intros a b B. pose proof (before_In _ _ _ B) as [Ia Ib].
    rewrite !first_index_app_in by (apply I2; assumption).
    apply I4; exact B.
  - rewrite length_app; simpl. rewrite <- I5, Ed, !total_count_app.
    unfold total_count; simpl. unfold info_count; simpl. lia.
Qed.

Lemma collect_inv_absent es e d :
  truthy (from_field_of e) = true ->
  Dict.get (extract_email_address (from_field_of e)) d = None ->
  collect_inv es d ->
  collect_inv (es ++ [e])
    (Dict.set (extract_email_address (from_field_of e))
              (extract_sender_name (from_field_of e), 1) d).
Proof.
  intros T G [I1 I2 I3 I4 I5].
  set (a0 := extract_email_address (from_field_of e)) in *.
  assert (EA : addresses (es ++ [e]) = addresses es ++ [a0])
    by (rewrite addresses_snoc, T; reflexivity).
  assert (EC : counted (es ++ [e]) = counted es ++ [e])
    by (rewrite counted_snoc, T; reflexivity).
  rewrite (set_absent _ _ _ G).
  assert (NK : ~ In a0 (Dict.keys d)) by (apply get_None_iff; exact G).
  assert (NA : ~ In a0 (addresses es)) by (rewrite <- I2; exact NK).
  split; rewrite ?keys_app, ?EA; simpl.
  - apply NoDup_app; [exact I1 | repeat constructor; simpl; tauto |].
    intros x Hx [<- | []]; auto.
  - intros a. rewrite !in_app_iff, I2; reflexivity.
  - intros a n c HI. apply in_app_or in HI as [HI | [HI | []]].
    + assert (N : a <> a0).
      { intros ->. apply NK. apply (in_map fst) in HI; exact HI. }
      destruct (I3 _ _ _ HI) as (-> & e' & F & ->). split.
      * symmetry; apply occurrences_snoc_neq; exact N.
      * exists e'; split; [|reflexivity].
        unfold first_with in *; rewrite EC. apply find_app_found; exact F.
    + inversion HI; subst a n c; clear HI. split.
      * rewrite occurrences_snoc_eq, (occurrences_notin _ _ NA); reflexivity.
      * exists e; split; [|reflexivity].
        pose proof (first_with_notin _ _ NA) as F.
        unfold first_with in *; rewrite EC, (find_app_none _ _ _ F); simpl.
        fold a0. rewrite str_eqb_refl; reflexivity.
  - intros a b B. apply before_snoc_inv in B as [B | [Ia ->]].
    + pose proof (before_In _ _ _ B) as [Ia Ib].
      rewrite !first_index_app_in by (apply I2; assumption).
      apply I4; exact B.
    + rewrite first_index_app_in by (apply I2; exact Ia).
      rewrite first_index_app_out by exact NA.
      apply I2 in Ia. apply first_index_lt in Ia. lia.
  - rewrite length_app, total_count_app, I5; reflexivity.
Qed.

Lemma collect_inv_step es e d :
  collect_inv es d -> collect_inv (es ++ [e]) (tally d e).
Proof.
  intros I. destruct (truthy (from_field_of e)) eqn:T.
  - unfold tally; rewrite T; simpl.
    destruct (Dict.get (extract_email_address (from_field_of e)) d) eqn:G.
    + apply collect_inv_present; assumption.
    + apply collect_inv_absent; assumption.
  - apply collect_inv_skip; assumption.
Qed.

Lemma collect_inv_holds es : collect_inv es (collect es).
Proof.
  induction es as [|e es IH] using rev_ind.
  - apply collect_inv_nil.
  - rewrite collect_snoc. apply collect_inv_step; exact IH.
Qed.

(** ** The stable descending sort *)

Section SortedFacts.
Context {A : Type} (key : A -> nat).

Lemma insert_desc_perm x l : Permutation (insert_desc key x l) (x :: l).
Proof.
  induction l as [|y l IH]; simpl; [reflexivity|].
  destruct (key x <? key y); [|reflexivity].
  rewrite IH. apply perm_swap.
Qed.

Lemma sorted_reverse_perm l : Permutation (sorted_reverse key l) l.
Proof.
  induction l as [|x l IH]; simpl; [reflexivity|].
  rewrite insert_desc_perm, IH; reflexivity.
Qed.

Lemma descending_tail y l : descending key (y :: l) -> descending key l.
Proof. intros D a b B. apply D, before_cons, B. Qed.

Lemma before_insert_inv x l a b :
  descending key l ->
  before a b (insert_desc key x l) ->
  (a = x /\ In b l /\ key b <= key x) \/
  (b = x /\ In a l /\ key x < key a) \/
  before a b l.
Proof.
  induction l as [|y l IH]; simpl; intros D B.
  - destruct B as ([|? [|? ?]] & ? & ? & E); simpl in E; inversion E;
      match goal with H : [] = _ ++ _ :: _ |- _ =>
        apply app_cons_not_nil in H; contradiction end.
  - destruct (key x <? key y) eqn:C.
    + apply Nat.ltb_lt in C.
      apply before_inv_cons in B as [[-> HI] | B].
      * apply (Permutation_in _ (insert_desc_perm x l)) in HI.
        destruct HI as [<- | HI].
        -- right; left; repeat split; [left; reflexivity | exact C].
        -- right; right; apply before_head; exact HI.
      * destruct (IH (descending_tail _ _ D) B)
          as [(-> & HI & L) | [(-> & HI & L) | B']].
        -- left; repeat split; [right; exact HI | exact L].
        -- right; left; repeat split; [right; exact HI | exact L].
        -- right; right; apply before_cons; exact B'.
    + apply Nat.ltb_ge in C.
      apply before_inv_cons in B as [[-> HI] | B]; [|right; right; exact B].
      left; repeat split; [exact HI|].
      destruct HI as [<- | HI]; [exact C|].
      pose proof (D y b (before_head _ _ _ HI)). lia.
Qed.

Lemma sorted_reverse_before l a b :
  before a b (sorted_reverse key l) ->
  key b <= key a /\ (key a = key b -> before a b l).
Proof.
  revert a b; induction l as [|x l IH]; simpl; intros a b B.
  - destruct B as ([|? ?] & ? & ? & E); discriminate.
  - assert (D : descending key (sorted_reverse key l))
      by (intros u v Buv; apply (IH u v Buv)).
    destruct (before_insert_inv _ _ _ _ D B)
      as [(-> & HI & L) | [(-> & HI & L) | B']].
    + split; [exact L|]. intros _. apply before_head.
      apply (Permutation_in _ (sorted_reverse_perm l)); exact HI.
    + split; lia.
    + destruct (IH _ _ B') as [L R]. split; [exact L|].
      intros E; apply before_cons, R, E.
Qed.
End SortedFacts.

Lemma before_map_inv {A B} (f : A -> B) l u v :
  before u v (map f l) ->
  exists x y, u = f x /\ v = f y /\ before x y l.
Proof.
  intros (a & b & c & E).
  apply map_eq_app in E as (a' & r & -> & <- & E).
  destruct r as [|x r]; [discriminate|]. simpl in E; inversion E as [[E1 E2]].
  apply map_eq_app in E2 as (b' & r' & -> & <- & E3).
  destruct r' as [|y r']; [discriminate|]. simpl in E3; inversion E3.
  exists x, y; repeat split. exists a', b', r'; reflexivity.
Qed.

Lemma sorted_senders_perm emails :
  Permutation (sorted_senders emails) (collect emails).
Proof. apply sorted_reverse_perm. Qed.

Lemma ranked_prefix emails n :
  ranked (addresses emails) (map to_row (firstn n (sorted_senders emails))).
Proof.
  intros i j u v Hij Hi Hj.
  pose proof (nth_error_before _ _ _ _ _ Hij Hi Hj) as B.
  apply before_map_inv in B as (x & y & -> & -> & B).
  apply before_firstn in B.
  apply sorted_reverse_before in B as [L R].
  split; [exact L|]. intros E. specialize (R E).
  apply (before_map fst) in R.
  apply (inv_order _ _ (collect_inv_holds emails)); exact R.
Qed.

Lemma slice_to_nonneg {A} (n : Z) (l : list A) :
  (0 <= n)%Z -> slice_to n l = firstn (Z.to_nat n) l.
Proof. intros H. unfold slice_to. apply Z.leb_le in H; rewrite H; reflexivity. Qed.

Lemma row_email_to_row l : map row_email (map to_row l) = map fst l.
Proof. rewrite map_map. apply map_ext; intros [a [n c]]; reflexivity. Qed.

Lemma slice_to_prefix {A} (n : Z) (l : list A) :
  exists k, slice_to n l = firstn k l.
Proof. unfold slice_to. destruct (0 <=? n)%Z; eauto. Qed.

Lemma in_firstn_full {A} (x : A) n l : In x (firstn n l) -> In x l.
Proof.
  intros H. rewrite <- (firstn_skipn n l). apply in_or_app; left; exact H.
Qed.

Lemma in_analyze_senders emails top_n row :
  In row (analyze_senders emails top_n) ->
  In (row_email row, (row_name row, row_count row)) (collect emails).
Proof.
  unfold analyze_senders. destruct (slice_to_prefix top_n (sorted_senders emails))
    as (k & ->).
  intros H. apply in_map_iff in H as ([a [n c]] & <- & H).
  apply in_firstn_full in H.
  apply (Permutation_in _ (sorted_senders_perm emails)) in H. exact H.
Qed.

Lemma NoDup_firstn {A} n (l : list A) : NoDup l -> NoDup (firstn n l).
Proof.
  intros H. rewrite <- (firstn_skipn n l) in H.
  apply NoDup_app_remove_r in H; exact H.
Qed.

Lemma sum_counts_rows l : sum_counts (map to_row l) = total_count l.
Proof.
  unfold sum_counts, total_count.
  induction l as [|[a [n c]] l IH]; simpl; [reflexivity|].
  rewrite IH; reflexivity.
Qed.

Lemma total_count_perm l1 l2 :
  Permutation l1 l2 -> total_count l1 = total_count l2.
Proof.
  unfold total_count. induction 1; simpl; lia.
Qed.

Lemma total_count_firstn n l : total_count (firstn n l) <= total_count l.
Proof.
  rewrite <- (firstn_skipn n l) at 2. rewrite total_count_app; lia.
Qed.

Lemma collect_length emails :
  List.length (collect emails) = List.length (distinct (addresses emails)).
Proof.
  pose proof (collect_inv_holds emails) as [I1 I2 _ _ _].
  rewrite <- (length_map fst (collect emails)).
  apply Permutation_length, NoDup_Permutation.
  - exact I1.
  - apply NoDup_nodup.
  - intros a. unfold distinct. rewrite nodup_In. apply I2.
Qed.

Lemma sorted_senders_length emails :
  List.length (sorted_senders emails) = List.length (distinct (addresses emails)).
Proof.
  rewrite (Permutation_length (sorted_senders_perm emails)).
  apply collect_length.
Qed.

(* ================================================================= *)
(** * The aggregator *)

(** C1, as the specification has it, fails: with [top_n = 0] the call
    returns the empty list, it raises nothing. *)
Lemma analyze_senders_zero_returns :
  (0 <= 0)%Z /\
  call_analyze_senders scenario 0 = Returned [] /\
  call_analyze_senders scenario 0 <> Raised.
Proof. split; [lia | split; [reflexivity | discriminate]]. Qed.

(** C1, amended: [analyze_senders] returns for every list of records and
    every integer [top_n], never raising; it returns the first [top_n] rows
    of the ranking when [top_n >= 0] (none for 0) and all but the last
    [-top_n] rows when [top_n < 0]; on the empty list it returns the empty
    result. *)
Theorem analyze_senders_total (emails : list email) (top_n : Z) :
  exists rows,
    call_analyze_senders emails top_n = Returned rows /\
    rows = map to_row (slice_to top_n (sorted_senders emails)) /\
    List.length rows =
      (let n := List.length (distinct (addresses emails)) in
       if (0 <=? top_n)%Z then Nat.min (Z.to_nat top_n) n
       else n - Z.to_nat (- top_n)) /\
    call_analyze_senders [] top_n = Returned [].
Proof.
  exists (analyze_senders emails top_n). split; [reflexivity|].
  split; [reflexivity|]. split.
  - unfold analyze_senders, slice_to. rewrite length_map.
    destruct (0 <=? top_n)%Z; rewrite length_firstn, sorted_senders_length; lia.
  - unfold call_analyze_senders, analyze_senders, slice_to; simpl.
    destruct (0 <=? top_n)%Z; [destruct (Z.to_nat top_n)|]; reflexivity.
Qed.

(** C2: on the headers 'Alice <a@x.com>', 'a@x.com', 'Bob <b@x.com>',
    'Alice <a@x.com>' with [top_n = 2] the result is exactly
    ('a@x.com', 'Alice', 3) then ('b@x.com', 'Bob', 1). *)
Theorem analyze_senders_scenario :
  analyze_senders scenario 2 =
  [ (py "a@x.com", py "Alice", 3); (py "b@x.com", py "Bob", 1) ].
Proof. vm_compute. reflexivity. Qed.

(** C3: for [top_n > 0] the result is sorted by count descending, rows of
    equal count stand in the order their addresses were first met, and the
    result is the first [top_n] rows of the full ranking, which has a row
    for every address met and is ordered the same way. *)
Theorem analyze_senders_ranked (emails : list email) (top_n : Z) :
  (0 < top_n)%Z ->
  let full := map to_row (sorted_senders emails) in
  ranked (addresses emails) (analyze_senders emails top_n) /\
  analyze_senders emails top_n = firstn (Z.to_nat top_n) full /\
  ranked (addresses emails) full /\
  (forall a, In a (map row_email full) <-> In a (addresses emails)).
Proof.
  intros H full. unfold analyze_senders. rewrite slice_to_nonneg by lia.
  split; [|split; [|split]].
  - apply ranked_prefix.
  - unfold full. rewrite firstn_map; reflexivity.
  - unfold full.
    rewrite <- (firstn_all (sorted_senders emails)). apply ranked_prefix.
  - intros a. unfold full. rewrite row_email_to_row.
    rewrite <- (inv_keys _ _ (collect_inv_holds emails)).
    split; intros HI; (eapply Permutation_in; [|exact HI]);
      apply Permutation_map;
      [|apply Permutation_sym]; apply sorted_senders_perm.
Qed.

Lemma analyze_senders_ranked_witness :
  ranked (addresses scenario) (analyze_senders scenario 1) /\
  analyze_senders scenario 1 = [ (py "a@x.com", py "Alice", 3) ].
Proof.
  pose proof (analyze_senders_ranked scenario 1) as H.
  assert (P : (0 < 1)%Z) by lia.
  destruct (H P) as (A & _). split; [exact A|].
  vm_compute. reflexivity.
Defined.

(** C4: a record keeps the name it was inserted with.  Once the records
    [seen] have put a row for [a] in the dict, with name [n] and count [c],
    then after any further records [later] the row for [a] still has name
    [n], its count is [c] plus the number of records of [later] with that
    address, [n] is the name extracted from the first record of the whole
    input with address [a], and so the result reports it. *)
Theorem first_seen_name_wins (seen later : list email) (a n : str) (c : nat) :
  In (a, (n, c)) (Dict.items (collect seen)) ->
  In (a, (n, c + occurrences a (addresses later)))
     (Dict.items (collect (seen ++ later))) /\
  (exists e, first_with a (seen ++ later) = Some e /\
             n = extract_sender_name (from_field_of e)) /\
  (forall top_n row,
      In row (analyze_senders (seen ++ later) top_n) -> row_email row = a ->
      row_name row = n /\
      row_count row = c + occurrences a (addresses later)).
Proof.
  unfold Dict.items. intros HI.
  pose proof (collect_inv_holds seen) as [_ K1 F1 _ _].
  pose proof (collect_inv_holds (seen ++ later)) as [N2 K2 F2 _ _].
  destruct (F1 _ _ _ HI) as (Ec & e & Fe & En).
  assert (EA : addresses (seen ++ later) = addresses seen ++ addresses later).
  { unfold addresses, counted. rewrite filter_app, map_app; reflexivity. }
  assert (Fe' : first_with a (seen ++ later) = Some e).
  { unfold first_with, counted in *. rewrite filter_app.
    apply find_app_found; exact Fe. }
  assert (Ia : In a (Dict.keys (collect (seen ++ later)))).
  { apply K2. rewrite EA. apply in_or_app; left. apply K1.
    apply (in_map fst) in HI; exact HI. }
  apply in_map_iff in Ia as ([a' [n' c']] & Ea & HI'); simpl in Ea; subst a'.
  assert (HI2 : In (a, (n, c + occurrences a (addresses later)))
                   (collect (seen ++ later))).
  { destruct (F2 _ _ _ HI') as (Ec' & e' & Fe2 & En').
    rewrite Fe' in Fe2. injection Fe2 as Ee.
    replace n with n' by congruence.
    replace (c + occurrences a (addresses later)) with c'
      by (rewrite Ec', EA, occurrences_app, <- Ec; reflexivity).
    exact HI'. }
  split; [exact HI2|]. split; [exists e; auto|].
  intros top_n row Hrow Erow. apply in_analyze_senders in Hrow.
  rewrite Erow in Hrow.
  apply (In_get _ _ _ N2) in Hrow. apply (In_get _ _ _ N2) in HI2.
  rewrite Hrow in HI2. injection HI2 as E1 E2. auto.
Qed.

Lemma first_seen_name_wins_witness :
  In (py "a@x.com", (py "Alice", 1 + occurrences (py "a@x.com")
                                   (addresses (skipn 1 two_names))))
     (Dict.items (collect (firstn 1 two_names ++ skipn 1 two_names))).
Proof.
  pose proof (first_seen_name_wins (firstn 1 two_names) (skipn 1 two_names)
                (py "a@x.com") (py "Alice") 1) as H.
  assert (P : In (py "a@x.com", (py "Alice", 1))
                 (Dict.items (collect (firstn 1 two_names))))
    by (vm_compute; left; reflexivity).
  destruct (H P) as (A & _). exact A.
Defined.

(** C10: for [top_n >= 0] the addresses of the result are pairwise
    distinct, every count is at least 1, the counts sum to at most the
    number of records with a non-empty 'from', and the result has
    [min(top_n, number of distinct addresses)] rows. *)
Theorem analyze_senders_invariants (emails : list email) (top_n : Z) :
  (0 <= top_n)%Z ->
  let rows := analyze_senders emails top_n in
  NoDup (map row_email rows) /\
  Forall (fun row => 1 <= row_count row) rows /\
  sum_counts rows <= List.length (counted emails) /\
  List.length rows =
    Nat.min (Z.to_nat top_n) (List.length (distinct (addresses emails))).
Proof.
  intros H rows.
  pose proof (collect_inv_holds emails) as [I1 I2 I3 _ I5].
  repeat split.
  - unfold rows, analyze_senders. rewrite slice_to_nonneg by exact H.
    rewrite row_email_to_row, <- firstn_map. apply NoDup_firstn.
    eapply Permutation_NoDup; [|exact I1].
    apply Permutation_map, Permutation_sym, sorted_senders_perm.
  - apply Forall_forall. intros row Hrow.
    apply in_analyze_senders in Hrow.
    destruct (I3 _ _ _ Hrow) as (-> & _).
    apply occurrences_pos, I2. apply (in_map fst) in Hrow; exact Hrow.
  - unfold rows, analyze_senders. rewrite slice_to_nonneg by exact H.
    rewrite sum_counts_rows.
    etransitivity; [apply total_count_firstn|].
    rewrite (total_count_perm _ _ (sorted_senders_perm emails)), I5.
    unfold addresses. rewrite length_map; reflexivity.
  - unfold rows, analyze_senders. rewrite slice_to_nonneg by exact H.
    rewrite length_map, length_firstn, sorted_senders_length; reflexivity.
Qed.

Lemma analyze_senders_invariants_witness :
  NoDup (map row_email (analyze_senders scenario 2)) /\
  sum_counts (analyze_senders scenario 2) <= List.length (counted scenario).
Proof.
  pose proof (analyze_senders_invariants scenario 2) as H.
  assert (P : (0 <= 2)%Z) by lia.
  destruct (H P) as (A & _ & B & _). split; [exact A | exact B].
Defined.

(* ================================================================= *)
(** * The extractor *)

(** ** Character classes *)

Ltac by_cases_on_char c :=
  destruct c as [[] [] [] [] [] [] [] []]; vm_compute; reflexivity.

Lemma is_space_lower c : is_space (lower_char c) = is_space c.
Proof. by_cases_on_char c. Qed.



Lemma lower_char_idem c : lower_char (lower_char c) = lower_char c.
Proof. by_cases_on_char c. Qed.






Lemma space_not_addr_char c : is_space c = true -> is_addr_char c = false.
Proof. destruct c as [[] [] [] [] [] [] [] []]; vm_compute; congruence. Qed.

Lemma word_is_addr_char c : is_word c = true -> is_addr_char c = true.
Proof. unfold is_addr_char. intros ->; reflexivity. Qed.

(** ** The matchers, with the literal tests spelled out *)

Lemma angle_at_cons c t :
  angle_at (c :: t) =
  if Ascii.eqb c "<" then
    match span not_gt t with
    | ((_ :: _) as g, c' :: _) => if Ascii.eqb c' ">" then Some g else None
    | _ => None
    end
  else None.
Proof.
  destruct (Ascii.eqb c "<") eqn:E.
  - apply Ascii.eqb_eq in E; subst c. simpl.
    destruct (span not_gt t) as [[|x g] [|c' r]]; try reflexivity.
    destruct (Ascii.eqb c' ">") eqn:E'.
    + apply Ascii.eqb_eq in E'; subst; reflexivity.
    + destruct c' as [[] [] [] [] [] [] [] []]; try reflexivity; discriminate.
  - destruct c as [[] [] [] [] [] [] [] []]; try reflexivity; discriminate.
Qed.

Lemma domain_at_cons c t :
  domain_at (c :: t) =
  if is_addr_char c then
    match domain_at t with
    | Some m => Some (c :: m)
    | None =>
        match t with
        | c' :: u =>
            if Ascii.eqb c' "."
            then option_map (fun w => c :: "." :: w) (word_run u) else None
        | [] => None
        end
    end
  else None.
Proof.
  simpl. destruct (is_addr_char c); [|reflexivity].
  destruct (domain_at t); [reflexivity|].
  destruct t as [|c' u]; [reflexivity|].
  destruct (Ascii.eqb c' ".") eqn:E'.
  - apply Ascii.eqb_eq in E'; subst; reflexivity.
  - destruct c' as [[] [] [] [] [] [] [] []]; try reflexivity; discriminate.
Qed.

Lemma email_at_cons c t :
  email_at (c :: t) =
  if is_addr_char c then
    match email_at t with
    | Some m => Some (c :: m)
    | None =>
        match t with
        | c' :: d =>
            if Ascii.eqb c' "@"
            then option_map (fun m => c :: "@" :: m) (domain_at d) else None
        | [] => None
        end
    end
  else None.
Proof.
  simpl. destruct (is_addr_char c); [|reflexivity].
  destruct (email_at t); [reflexivity|].
  destruct t as [|c' u]; [reflexivity|].
  destruct (Ascii.eqb c' "@") eqn:E'.
  - apply Ascii.eqb_eq in E'; subst; reflexivity.
  - destruct c' as [[] [] [] [] [] [] [] []]; try reflexivity; discriminate.
Qed.

(** ** Lowercasing commutes with the extraction *)

Lemma lower_idem s : lower (lower s) = lower s.
Proof.
  unfold lower. rewrite map_map. apply map_ext, lower_char_idem.
Qed.



Lemma lstrip_lower s :
  lstrip_by is_space (lower s) = lower (lstrip_by is_space s).
Proof.
  induction s as [|c s IH]; simpl; [reflexivity|].
  rewrite is_space_lower. destruct (is_space c); [exact IH | reflexivity].
Qed.

Lemma strip_lower s : strip (lower s) = lower (strip s).
Proof.
  unfold strip, strip_by, rstrip_by, lower.
  rewrite lstrip_lower. unfold lower. rewrite <- map_rev.
  fold (lower (rev (lstrip_by is_space s))).
  rewrite lstrip_lower. unfold lower. rewrite map_rev; reflexivity.
Qed.







Lemma extract_email_address_lowercased s :
  lower (extract_email_address s) = extract_email_address s.
Proof.
  unfold extract_email_address.
  destruct (search angle_at s); [apply lower_idem|].
  destruct (search email_at s); apply lower_idem.
Qed.





(** ** The bracketed address *)

Lemma span_app_stop p g c r :
  forallb p g = true -> p c = false -> span p (g ++ c :: r) = (g, c :: r).
Proof.
  intros Hg Hc. induction g as [|x g IH]; simpl in *.
  - rewrite Hc; reflexivity.
  - apply andb_true_iff in Hg as [Hx Hg]. rewrite Hx, (IH Hg); reflexivity.
Qed.

Lemma span_all p g : forallb p g = true -> span p g = (g, []).
Proof.
  intros Hg. induction g as [|x g IH]; simpl in *; [reflexivity|].
  apply andb_true_iff in Hg as [Hx Hg]. rewrite Hx, (IH Hg); reflexivity.
Qed.

Lemma no_char_forallb c g :
  has_char c g = false -> forallb (fun x => negb (Ascii.eqb x c)) g = true.
Proof.
  unfold has_char. induction g as [|x g IH]; simpl; [reflexivity|].
  intros H. apply orb_false_iff in H as [Hx Hg].
  rewrite Ascii.eqb_sym, Hx. simpl. exact (IH Hg).
Qed.

Lemma search_angle_at_found pre g post :
  only_empty_brackets pre = true -> g <> [] -> has_char ">" g = false ->
  search angle_at (pre ++ "<" :: g ++ ">" :: post) = Some g.
Proof.
  intros Hpre Hg Hno.
  assert (Hspan : span not_gt (g ++ ">" :: post) = (g, ">" :: post))
    by (apply span_app_stop; [apply no_char_forallb; exact Hno | reflexivity]).
  induction pre as [|c t IH].
  - cbn [app search]. rewrite angle_at_cons, Hspan. cbn [Ascii.eqb].
    destruct g as [|x g]; [congruence | reflexivity].
  - change ((c :: t) ++ "<" :: g ++ ">" :: post)
      with (c :: (t ++ "<" :: g ++ ">" :: post)).
    cbn [search]. rewrite angle_at_cons. cbn [only_empty_brackets] in Hpre.
    destruct (Ascii.eqb c "<").
    + destruct t as [|c' t']; [discriminate|].
      apply andb_true_iff in Hpre as [Hc' Ht].
      change ((c' :: t') ++ "<" :: g ++ ">" :: post)
        with (c' :: (t' ++ "<" :: g ++ ">" :: post)).
      cbn [span]. unfold not_gt at 1. rewrite Hc'. cbn [negb].
      apply IH; exact Ht.
    + apply IH; exact Hpre.
Qed.

Lemma no_lt_only_empty_brackets pre :
  has_char "<" pre = false -> only_empty_brackets pre = true.
Proof.
  unfold has_char. induction pre as [|c t IH]; [reflexivity|].
  cbn [existsb only_empty_brackets].
  intros H. apply orb_false_iff in H as [Hc Ht].
  rewrite Ascii.eqb_sym, Hc. exact (IH Ht).
Qed.

(** C5, as the specification has it, fails: in '<> <a@b.c>' nothing stands
    between the first '<' and its '>', yet the address is 'a@b.c'. *)
Lemma empty_bracket_pair_skipped :
  spec_bracket_address (py "<> <a@b.c>") = Some [] /\
  extract_email_address (py "<> <a@b.c>") = py "a@b.c" /\
  Some (extract_email_address (py "<> <a@b.c>"))
    <> spec_bracket_address (py "<> <a@b.c>").
Proof. vm_compute. repeat split; discriminate. Qed.

(** C5, amended: when the input has a '<' followed by at least one
    character other than '>' and then a '>', and every earlier '<' is
    directly followed by '>', the address is the text between that '<' and
    the next '>', trimmed and lowercased.  When no '<' stands earlier, that
    '<' is the first one of the input and the address is the one the
    specification describes. *)
Theorem address_between_brackets (pre g post : str) :
  only_empty_brackets pre = true -> g <> [] -> has_char ">" g = false ->
  extract_email_address (pre ++ "<" :: g ++ ">" :: post) = lower (strip g) /\
  (has_char "<" pre = false ->
   spec_bracket_address (pre ++ "<" :: g ++ ">" :: post)
   = Some (extract_email_address (pre ++ "<" :: g ++ ">" :: post))).
Proof.
  intros Hpre Hg Hno.
  assert (EA : extract_email_address (pre ++ "<" :: g ++ ">" :: post)
               = lower (strip g)).
  { unfold extract_email_address.
    rewrite (search_angle_at_found pre g post Hpre Hg Hno); reflexivity. }
  split; [exact EA|]. intros Hlt. rewrite EA.
  unfold spec_bracket_address, between_first_angle.
  rewrite (span_app_stop not_lt pre "<" (g ++ ">" :: post));
    [|apply no_char_forallb; exact Hlt | reflexivity].
  cbn [snd].
  rewrite (span_app_stop not_gt g ">" post);
    [reflexivity | apply no_char_forallb; exact Hno | reflexivity].
Qed.

Lemma address_between_brackets_witness :
  extract_email_address (py "<> Alice < A@X.com >, <b@x.com>") = py "a@x.com".
Proof.
  pose proof (address_between_brackets (py "<> Alice ") (py " A@X.com ")
                (py ", <b@x.com>")) as H.
  assert (P1 : only_empty_brackets (py "<> Alice ") = true) by reflexivity.
  assert (P2 : py " A@X.com " <> []) by discriminate.
  assert (P3 : has_char ">" (py " A@X.com ") = false) by reflexivity.
  destruct (H P1 P2 P3) as (A & _).
  rewrite <- (eq_refl : lower (strip (py " A@X.com ")) = py "a@x.com").
  exact A.
Defined.

(** ** Stripping *)

Section Strip.
Variable p : ascii -> bool.

Lemma lstrip_by_all l : forallb p l = true -> lstrip_by p l = [].
Proof.
  induction l as [|c l IH]; simpl; [reflexivity|].
  intros H. apply andb_true_iff in H as [-> H]. exact (IH H).
Qed.

Lemma lstrip_by_app_all l m :
  forallb p l = true -> lstrip_by p (l ++ m) = lstrip_by p m.
Proof.
  induction l as [|c l IH]; simpl; [reflexivity|].
  intros H. apply andb_true_iff in H as [-> H]. exact (IH H).
Qed.

Lemma lstrip_by_clean m : starts_clean p m = true -> lstrip_by p m = m.
Proof.
  destruct m as [|c m]; simpl; [reflexivity|].
  intros H. apply negb_true_iff in H. rewrite H; reflexivity.
Qed.

Lemma lstrip_by_starts_clean s : starts_clean p (lstrip_by p s) = true.
Proof.
  induction s as [|c s IH]; simpl; [reflexivity|].
  destruct (p c) eqn:E; [exact IH | simpl; rewrite E; reflexivity].
Qed.

Lemma lstrip_by_decomp s :
  exists l, forallb p l = true /\ s = l ++ lstrip_by p s.
Proof.
  induction s as [|c s (l & Hl & E)]; simpl.
  - exists []; auto.
  - destruct (p c) eqn:Ec.
    + exists (c :: l); simpl. rewrite Ec, Hl, <- E; auto.
    + exists []; auto.
Qed.

Lemma forallb_rev l : forallb p (rev l) = forallb p l.
Proof.
  induction l as [|c l IH]; simpl; [reflexivity|].
  rewrite forallb_app, IH; simpl. rewrite andb_true_r, andb_comm; reflexivity.
Qed.

Lemma rstrip_by_decomp s :
  exists l, forallb p l = true /\ s = rstrip_by p s ++ l.
Proof.
  unfold rstrip_by. destruct (lstrip_by_decomp (rev s)) as (l & Hl & E).
  exists (rev l). rewrite forallb_rev. split; [exact Hl|].
  rewrite <- rev_app_distr, <- E, rev_involutive; reflexivity.
Qed.

Lemma starts_clean_prefix m l :
  starts_clean p (m ++ l) = true -> starts_clean p m = true.
Proof. destruct m; simpl; auto. Qed.

Lemma strip_by_decomp s :
  exists l1 l2,
    forallb p l1 = true /\ forallb p l2 = true /\
    s = l1 ++ strip_by p s ++ l2.
Proof.
  unfold strip_by. destruct (lstrip_by_decomp s) as (l1 & H1 & E1).
  destruct (rstrip_by_decomp (lstrip_by p s)) as (l2 & H2 & E2).
  exists l1, l2. repeat split; try assumption.
  rewrite <- E2; exact E1.
Qed.

Lemma strip_by_sandwich l1 m l2 :
  forallb p l1 = true -> forallb p l2 = true ->
  starts_clean p m = true -> ends_clean p m = true ->
  strip_by p (l1 ++ m ++ l2) = m.
Proof.
  intros H1 H2 Hs He. unfold strip_by, rstrip_by.
  rewrite (lstrip_by_app_all _ _ H1).
  assert (E : lstrip_by p (m ++ l2) = m ++ l2 \/ lstrip_by p (m ++ l2) = m).
  { destruct m as [|c m].
    - right. simpl. apply lstrip_by_all; exact H2.
    - left. apply lstrip_by_clean. exact Hs. }
  destruct E as [-> | ->].
  - rewrite rev_app_distr, lstrip_by_app_all by (rewrite forallb_rev; exact H2).
    rewrite (lstrip_by_clean _ He). apply rev_involutive.
  - rewrite (lstrip_by_clean _ He). apply rev_involutive.
Qed.

Lemma strip_by_clean s :
  starts_clean p (strip_by p s) = true /\ ends_clean p (strip_by p s) = true.
Proof.
  unfold strip_by. split.
  - destruct (rstrip_by_decomp (lstrip_by p s)) as (l & _ & E).
    apply (starts_clean_prefix _ l). rewrite <- E.
    apply lstrip_by_starts_clean.
  - unfold ends_clean, rstrip_by. rewrite rev_involutive.
    apply lstrip_by_starts_clean.
Qed.

Lemma strip_by_idem s : strip_by p (strip_by p s) = strip_by p s.
Proof.
  destruct (strip_by_clean s) as [Hs He].
  pose proof (strip_by_sandwich [] (strip_by p s) [] eq_refl eq_refl Hs He) as H.
  simpl in H. rewrite app_nil_r in H. exact H.
Qed.
End Strip.

Lemma starts_clean_app p l x :
  starts_clean p l = true -> starts_clean p x = true ->
  starts_clean p (l ++ x) = true.
Proof. destruct l; simpl; auto. Qed.

Lemma ends_clean_app p x r :
  ends_clean p x = true -> ends_clean p r = true ->
  ends_clean p (x ++ r) = true.
Proof.
  unfold ends_clean. intros Hx Hr. rewrite rev_app_distr.
  apply starts_clean_app; assumption.
Qed.

Lemma starts_clean_weaken (p q : ascii -> bool) m :
  (forall c, p c = true -> q c = true) ->
  starts_clean q m = true -> starts_clean p m = true.
Proof.
  intros Hpq. destruct m as [|c m]; simpl; [reflexivity|].
  intros H. apply negb_true_iff in H. apply negb_true_iff.
  destruct (p c) eqn:E; [apply Hpq in E; congruence | reflexivity].
Qed.

Lemma ends_clean_weaken (p q : ascii -> bool) m :
  (forall c, p c = true -> q c = true) ->
  ends_clean q m = true -> ends_clean p m = true.
Proof. intros Hpq. apply starts_clean_weaken; exact Hpq. Qed.

Lemma rev_repeat_same {A} (c : A) k : rev (repeat c k) = repeat c k.
Proof.
  induction k as [|k IH]; simpl; [reflexivity|].
  rewrite IH. symmetry; apply repeat_cons.
Qed.

Lemma starts_clean_repeat p c k : p c = false -> starts_clean p (repeat c k) = true.
Proof. intros H. destruct k; simpl; [reflexivity | rewrite H; reflexivity]. Qed.

Lemma ends_clean_repeat p c k : p c = false -> ends_clean p (repeat c k) = true.
Proof.
  intros H. unfold ends_clean. rewrite rev_repeat_same.
  apply starts_clean_repeat; exact H.
Qed.

Lemma forallb_repeat (p : ascii -> bool) c k :
  p c = true -> forallb p (repeat c k) = true.
Proof. intros H. induction k; simpl; [reflexivity | rewrite H; assumption]. Qed.

Lemma mem_dquote_blank_or_quote c :
  mem_char [dquote] c = true -> is_blank_or_quote c = true.
Proof. destruct c as [[] [] [] [] [] [] [] []]; vm_compute; congruence. Qed.

Lemma mem_squote_blank_or_quote c :
  mem_char [squote] c = true -> is_blank_or_quote c = true.
Proof. destruct c as [[] [] [] [] [] [] [] []]; vm_compute; congruence. Qed.

Lemma space_blank_or_quote c :
  is_space c = true -> is_blank_or_quote c = true.
Proof. unfold is_blank_or_quote. intros ->; reflexivity. Qed.

(** Every layer of double quotes, then every layer of single quotes, goes. *)
Lemma unquoted_name_layers k j m :
  starts_clean is_blank_or_quote m = true ->
  ends_clean is_blank_or_quote m = true ->
  unquoted_name
    (repeat dquote k ++ (repeat squote j ++ m ++ repeat squote j)
                     ++ repeat dquote k) = m.
Proof.
  intros Hs He. unfold unquoted_name, strip, strip_chars.
  set (A := repeat squote j ++ m ++ repeat squote j).
  assert (As : forall p, p squote = false ->
             (forall c, p c = true -> is_blank_or_quote c = true) ->
             starts_clean p A = true /\ ends_clean p A = true).
  { intros p Hp Hq. unfold A. split.
    - repeat apply starts_clean_app;
        try (apply starts_clean_repeat; exact Hp).
      apply (starts_clean_weaken _ _ _ Hq Hs).
    - repeat apply ends_clean_app;
        try (apply ends_clean_repeat; exact Hp).
      apply (ends_clean_weaken _ _ _ Hq He). }
  assert (E3 : strip_by (mem_char [squote]) A = m).
  { unfold A.
    apply (strip_by_sandwich (mem_char [squote]) _ m _
             (forallb_repeat (mem_char [squote]) squote j eq_refl)
             (forallb_repeat (mem_char [squote]) squote j eq_refl)).
    - apply (starts_clean_weaken _ _ _ mem_squote_blank_or_quote Hs).
    - apply (ends_clean_weaken _ _ _ mem_squote_blank_or_quote He). }
  destruct (As is_space eq_refl space_blank_or_quote) as [S1 S2].
  destruct (As (mem_char [dquote]) eq_refl mem_dquote_blank_or_quote)
    as [D1 D2].
  clearbody A. clear As.
  pose proof (strip_by_sandwich is_space []
                (repeat dquote k ++ A ++ repeat dquote k) [] eq_refl eq_refl)
    as E1.
  simpl in E1. rewrite app_nil_r in E1. rewrite E1.
  - rewrite (strip_by_sandwich (mem_char [dquote]) _ A _
               (forallb_repeat (mem_char [dquote]) dquote k eq_refl)
               (forallb_repeat (mem_char [dquote]) dquote k eq_refl)
               D1 D2).
    exact E3.
  - apply starts_clean_app; [apply starts_clean_repeat; reflexivity|].
    apply starts_clean_app; [exact S1|].
    apply starts_clean_repeat; reflexivity.
  - apply ends_clean_app; [apply ends_clean_repeat; reflexivity|].
    apply ends_clean_app; [exact S2|].
    apply ends_clean_repeat; reflexivity.
Qed.

Lemma name_at_start_app g rest :
  has_char "<" g = false ->
  name_at_start (g ++ "<" :: rest) =
  match g with [] => None | _ :: _ => Some g end.
Proof.
  intros H. unfold name_at_start.
  rewrite (span_app_stop not_lt g "<" rest);
    [|apply no_char_forallb; exact H | reflexivity].
  destruct g; reflexivity.
Qed.


(** C6, as the specification has it, fails: of the two layers of double
    quotes around Bob both are removed, not one. *)
Lemma two_quote_layers_removed :
  spec_display_name twice_quoted = Some ([dquote] ++ py "Bob" ++ [dquote]) /\
  extract_sender_name twice_quoted = py "Bob" /\
  Some (extract_sender_name twice_quoted) <> spec_display_name twice_quoted.
Proof. vm_compute. repeat split; discriminate. Qed.

(** C6, amended: for an input [g ++ "<" ++ rest] whose first '<' follows
    [g], the name is [g] trimmed of white space, then of every leading and
    trailing double quote, then of every leading and trailing single quote
    (all layers, not one); when nothing is left the name is the extracted
    address. *)
Theorem sender_name_of_bracketed (g rest : str) :
  has_char "<" g = false ->
  extract_sender_name (g ++ "<" :: rest) =
    (if truthy (unquoted_name g) then unquoted_name g
     else extract_email_address (g ++ "<" :: rest)) /\
  (forall k j m,
      g = repeat dquote k ++ (repeat squote j ++ m ++ repeat squote j)
                          ++ repeat dquote k ->
      starts_clean is_blank_or_quote m = true ->
      ends_clean is_blank_or_quote m = true ->
      unquoted_name g = m).
Proof.
  intros H. split.
  - unfold extract_sender_name. rewrite (name_at_start_app g rest H).
    destruct g as [|x g]; reflexivity.
  - intros k j m -> Hs He. apply unquoted_name_layers; assumption.
Qed.

Lemma sender_name_of_bracketed_witness :
  extract_sender_name twice_quoted = py "Bob".
Proof.
  pose proof (sender_name_of_bracketed
                ([dquote; dquote] ++ py "Bob" ++ [dquote; dquote] ++ py " ")
                (py "b@x.com>")) as H.
  assert (P : has_char "<" ([dquote; dquote] ++ py "Bob"
                              ++ [dquote; dquote] ++ py " ") = false)
    by reflexivity.
  destruct (H P) as (A & _). exact A.
Defined.



(** ** Headers without angle brackets *)

Lemma search_angle_at_none h :
  has_char "<" h = false -> search angle_at h = None.
Proof.
  unfold has_char. induction h as [|c t IH]; [reflexivity|].
  cbn [existsb search]. intros H. apply orb_false_iff in H as [Hc Ht].
  rewrite angle_at_cons, Ascii.eqb_sym, Hc. exact (IH Ht).
Qed.

Lemma name_at_start_none h :
  has_char "<" h = false -> name_at_start h = None.
Proof.
  intros H. unfold name_at_start.
  rewrite (span_all not_lt h) by (apply no_char_forallb; exact H).
  destruct h; reflexivity.
Qed.

Lemma email_at_not_addr c t : is_addr_char c = false -> email_at (c :: t) = None.
Proof. intros H. rewrite email_at_cons, H; reflexivity. Qed.

Lemma domain_at_not_addr l :
  starts_clean is_addr_char l = true -> domain_at l = None.
Proof.
  destruct l as [|c l]; [reflexivity|]. cbn [starts_clean].
  intros H. apply negb_true_iff in H. rewrite domain_at_cons, H; reflexivity.
Qed.

Lemma search_email_at_skip l r :
  forallb is_space l = true -> search email_at (l ++ r) = search email_at r.
Proof.
  induction l as [|c l IH]; [reflexivity|]. cbn [forallb app search].
  intros H. apply andb_true_iff in H as [Hc Hl].
  rewrite (email_at_not_addr _ _ (space_not_addr_char _ Hc)). exact (IH Hl).
Qed.

Lemma span_fst_forallb p s : forallb p (fst (span p s)) = true.
Proof.
  induction s as [|c s IH]; simpl; [reflexivity|].
  destruct (p c) eqn:E; [|reflexivity].
  destruct (span p s); simpl in *. rewrite E; exact IH.
Qed.

Lemma span_fst_app p u l :
  starts_clean p l = true -> fst (span p (u ++ l)) = fst (span p u).
Proof.
  intros Hl. induction u as [|c u IH]; simpl.
  - destruct l as [|x l]; [reflexivity|]. simpl in *.
    apply negb_true_iff in Hl. rewrite Hl; reflexivity.
  - destruct (p c); [|reflexivity].
    destruct (span p (u ++ l)), (span p u); simpl in *. rewrite IH; reflexivity.
Qed.

Lemma word_run_app u l :
  starts_clean is_word l = true -> word_run (u ++ l) = word_run u.
Proof. intros H. unfold word_run. rewrite (span_fst_app _ _ _ H); reflexivity. Qed.

Lemma word_run_forallb u w : word_run u = Some w -> forallb is_word w = true.
Proof.
  unfold word_run. pose proof (span_fst_forallb is_word u) as H.
  destruct (fst (span is_word u)); [discriminate|].
  intros [= <-]; exact H.
Qed.

Lemma forallb_word_addr w :
  forallb is_word w = true -> forallb is_addr_char w = true.
Proof.
  induction w as [|c w IH]; simpl; [reflexivity|].
  intros H. apply andb_true_iff in H as [Hc Hw].
  rewrite (word_is_addr_char _ Hc); exact (IH Hw).
Qed.

Lemma addr_clean_word_clean l :
  starts_clean is_addr_char l = true -> starts_clean is_word l = true.
Proof. apply starts_clean_weaken, word_is_addr_char. Qed.

Lemma domain_at_forallb s m :
  domain_at s = Some m -> forallb is_addr_char m = true.
Proof.
  revert m; induction s as [|c t IH]; intros m; [discriminate|].
  rewrite domain_at_cons. destruct (is_addr_char c) eqn:Ec; [|discriminate].
  destruct (domain_at t) as [m'|].
  - intros [= <-]. simpl. rewrite Ec. apply IH; reflexivity.
  - destruct t as [|c' u]; [discriminate|].
    destruct (Ascii.eqb c' "."); [|discriminate].
    destruct (word_run u) as [w|] eqn:Ew; [|discriminate].
    intros [= <-]. cbn [forallb]. rewrite Ec.
    rewrite (forallb_word_addr _ (word_run_forallb _ _ Ew)); reflexivity.
Qed.

Lemma domain_at_app s l :
  forallb is_addr_char s = true -> starts_clean is_addr_char l = true ->
  domain_at (s ++ l) = domain_at s.
Proof.
  intros Hs Hl. induction s as [|c t IH].
  - simpl. apply domain_at_not_addr; exact Hl.
  - cbn [forallb] in Hs. apply andb_true_iff in Hs as [Hc Ht].
    change ((c :: t) ++ l) with (c :: (t ++ l)).
    rewrite !domain_at_cons, Hc, (IH Ht).
    destruct (domain_at t); [reflexivity|].
    destruct t as [|c' u].
    + simpl. destruct l as [|x l]; [reflexivity|].
      cbn [starts_clean] in Hl. apply negb_true_iff in Hl.
      destruct (Ascii.eqb x ".") eqn:Ex; [|reflexivity].
      apply Ascii.eqb_eq in Ex; subst x. discriminate.
    + change ((c' :: u) ++ l) with (c' :: (u ++ l)). cbv beta iota.
      rewrite (word_run_app _ _ (addr_clean_word_clean _ Hl)); reflexivity.
Qed.

Lemma email_at_extend t l :
  email_at t = Some t -> starts_clean is_addr_char l = true ->
  email_at (t ++ l) = Some t.
Proof.
  intros Ht Hl. induction t as [|c t IH]; [discriminate|].
  change ((c :: t) ++ l) with (c :: (t ++ l)).
  rewrite email_at_cons in Ht |- *.
  destruct (is_addr_char c); [|discriminate].
  destruct (email_at t) as [m|].
  - injection Ht as ->. rewrite (IH eq_refl); reflexivity.
  - destruct t as [|c' d]; [discriminate|].
    destruct (Ascii.eqb c' "@") eqn:Ec'; [|discriminate].
    apply Ascii.eqb_eq in Ec'; subst c'.
    destruct (domain_at d) as [m|] eqn:Ed; [|discriminate].
    simpl in Ht. injection Ht as ->.
    change (("@" :: d) ++ l) with ("@" :: (d ++ l)).
    rewrite (email_at_not_addr "@" (d ++ l) eq_refl). cbn [Ascii.eqb Bool.eqb].
    rewrite (domain_at_app _ _ (domain_at_forallb _ _ Ed) Hl), Ed; reflexivity.
Qed.

Lemma spaces_addr_clean l :
  forallb is_space l = true -> starts_clean is_addr_char l = true.
Proof.
  destruct l as [|c l]; [reflexivity|]. cbn [forallb starts_clean].
  intros H. apply andb_true_iff in H as [Hc _].
  rewrite (space_not_addr_char _ Hc); reflexivity.
Qed.

Lemma search_email_at_whole h :
  pattern_address h -> search email_at h = Some (strip h).
Proof.
  unfold pattern_address. intros H.
  destruct (strip_by_decomp is_space h) as (l1 & l2 & H1 & H2 & E).
  fold (strip h) in E. rewrite E at 1.
  rewrite (search_email_at_skip _ _ H1).
  pose proof (email_at_extend _ l2 H (spaces_addr_clean _ H2)) as X.
  destruct (strip h) as [|c t]; [discriminate|].
  change ((c :: t) ++ l2) with (c :: (t ++ l2)) in *.
  cbn [search]. rewrite X; reflexivity.
Qed.

(** C9, as the specification has it, fails: the bare address 'a+b@x.com'
    is cut at the plus sign, which the address pattern does not admit. *)
Lemma plus_address_truncated :
  bare_address (py "a+b@x.com") = true /\
  has_char "<" (py "a+b@x.com") = false /\
  has_char ">" (py "a+b@x.com") = false /\
  extract_email_address (py "a+b@x.com") = py "b@x.com" /\
  extract_sender_name (py "a+b@x.com") = py "b@x.com" /\
  extract_email_address (py "a+b@x.com") <> lower (strip (py "a+b@x.com")).
Proof. vm_compute. repeat split; discriminate. Qed.

Lemma addr_char_not_space c : is_addr_char c = true -> is_space c = false.
Proof.
  intros H. destruct (is_space c) eqn:E; [|reflexivity].
  rewrite (space_not_addr_char _ E) in H; discriminate.
Qed.

Lemma forallb_addr_no_space m :
  forallb is_addr_char m = true ->
  forallb (fun c => negb (is_space c)) m = true.
Proof.
  induction m as [|c m IH]; simpl; [reflexivity|].
  intros H. apply andb_true_iff in H as [Hc Hm].
  rewrite (addr_char_not_space _ Hc); exact (IH Hm).
Qed.

(** A match of the address pattern holds no white space. *)
Lemma email_at_no_space s m :
  email_at s = Some m -> forallb (fun c => negb (is_space c)) m = true.
Proof.
  revert m; induction s as [|c t IH]; intros m; [discriminate|].
  rewrite email_at_cons. destruct (is_addr_char c) eqn:Ec; [|discriminate].
  destruct (email_at t) as [m'|].
  - intros [= <-]. cbn [forallb]. rewrite (addr_char_not_space _ Ec).
    apply IH; reflexivity.
  - destruct t as [|c' d]; [discriminate|].
    destruct (Ascii.eqb c' "@"); [|discriminate].
    destruct (domain_at d) as [md|] eqn:Ed; [|discriminate].
    intros [= <-]. cbn [forallb]. rewrite (addr_char_not_space _ Ec).
    rewrite (forallb_addr_no_space _ (domain_at_forallb _ _ Ed)); reflexivity.
Qed.

Lemma search_email_at_some h m :
  search email_at h = Some m -> exists s, email_at s = Some m.
Proof.
  induction h as [|c t IH]; cbn [search].
  - destruct (email_at []) eqn:E; [|discriminate]. intros [= <-]; eauto.
  - destruct (email_at (c :: t)) eqn:E; [intros [= <-]; eauto | exact IH].
Qed.

Lemma no_space_starts_clean m :
  forallb (fun c => negb (is_space c)) m = true -> starts_clean is_space m = true.
Proof.
  destruct m as [|c m]; [reflexivity|]. cbn [forallb starts_clean].
  intros H. apply andb_true_iff in H as [Hc _]; exact Hc.
Qed.

Lemma strip_no_space m :
  forallb (fun c => negb (is_space c)) m = true -> strip m = m.
Proof.
  intros H.
  pose proof (strip_by_sandwich is_space [] m [] eq_refl eq_refl
                (no_space_starts_clean _ H)) as E.
  simpl in E. rewrite app_nil_r in E. apply E.
  unfold ends_clean. apply no_space_starts_clean.
  rewrite forallb_rev; exact H.
Qed.

(** C9, amended: for every header without '<' the display name is the
    address.  When the trimmed header is, whole, one match of the address
    pattern (word characters, dots and hyphens around one '@', the domain
    ending in a dot and word characters), or the header holds no match of
    the pattern at all, both are the trimmed header lowercased; otherwise
    both are the first match of the pattern, lowercased. *)
Theorem bare_address_identity (h : str) :
  has_char "<" h = false ->
  extract_sender_name h = extract_email_address h /\
  (pattern_address h \/ search email_at h = None ->
   extract_email_address h = lower (strip h)) /\
  (forall m, search email_at h = Some m ->
             extract_email_address h = lower m).
Proof.
  intros Hlt. split; [|split].
  - unfold extract_sender_name. rewrite (name_at_start_none h Hlt); reflexivity.
  - intros Hp. unfold extract_email_address.
    rewrite (search_angle_at_none h Hlt).
    destruct Hp as [Hp | Hp].
    + rewrite (search_email_at_whole h Hp). unfold strip.
      rewrite strip_by_idem; reflexivity.
    + rewrite Hp; reflexivity.
  - intros m Hm. unfold extract_email_address.
    rewrite (search_angle_at_none h Hlt), Hm.
    destruct (search_email_at_some h m Hm) as (s & Hs).
    rewrite (strip_no_space m (email_at_no_space s m Hs)); reflexivity.
Qed.

Lemma bare_address_identity_witness :
  extract_sender_name (py " Bob.Smith@Example.COM ") = py "bob.smith@example.com".
Proof.
  pose proof (bare_address_identity (py " Bob.Smith@Example.COM ")) as H.
  assert (P1 : has_char "<" (py " Bob.Smith@Example.COM ") = false)
    by reflexivity.
  assert (P2 : pattern_address (py " Bob.Smith@Example.COM ") \/
               search email_at (py " Bob.Smith@Example.COM ") = None)
    by (left; vm_compute; reflexivity).
  destruct (H P1) as (A & B & _). rewrite A, (B P2). vm_compute. reflexivity.
Defined.

(* ================================================================= *)
(** * Reporting *)

Lemma enumerate_fst {A} (l : list A) start :
  map fst (Report.enumerate start l) = seq start (List.length l).
Proof.
  revert start; induction l as [|x l IH]; intros start; simpl; [reflexivity|].
  rewrite IH; reflexivity.
Qed.

Lemma enumerate_snd {A} (l : list A) start :
  map snd (Report.enumerate start l) = l.
Proof.
  revert start; induction l as [|x l IH]; intros start; simpl; [reflexivity|].
  rewrite IH; reflexivity.
Qed.

Lemma enumerate_length {A} (l : list A) start :
  List.length (Report.enumerate start l) = List.length l.
Proof. rewrite <- (length_map snd), enumerate_snd; reflexivity. Qed.

(** The name shown in the table is never longer than 30 characters: it is
    the name itself exactly when the name has up to 30 characters, and
    otherwise the first 28 characters of the name and two dots; either way
    the first 28 characters shown are those of the name. *)
Theorem display_name_fits (name : str) :
  List.length (Report.display_name name) = Nat.min (List.length name) 30 /\
  firstn 28 (Report.display_name name) = firstn 28 name /\
  (Report.display_name name = name <-> List.length name <= 30) /\
  (Report.display_name name = name \/
   Report.display_name name = firstn 28 name ++ py "..").
Proof.
  unfold Report.display_name.
  destruct (30 <? List.length name) eqn:E.
  - apply Nat.ltb_lt in E.
    assert (L : List.length (firstn 28 name ++ py "..") = 30).
    { rewrite length_app, length_firstn.
      change (List.length (py "..")) with 2. lia. }
    split; [lia|]. split; [|split; [|right; reflexivity]].
    + rewrite firstn_app, firstn_firstn, length_firstn.
      replace (28 - Nat.min 28 (List.length name)) with 0 by lia.
      rewrite Nat.min_id. simpl. apply app_nil_r.
    + split; [|lia]. intros Heq. rewrite Heq in L. lia.
  - apply Nat.ltb_ge in E. split; [lia|]. split; [reflexivity|].
    split; [tauto | left; reflexivity].
Qed.

(** The saved list numbers the rows 1, 2, 3, ... in their order and keeps
    every row as it is: the rows are read back from it unchanged. *)
Theorem save_results_round_trip (top_senders : list sender_row) :
  map Report.rank (Report.save_results top_senders)
    = seq 1 (List.length top_senders) /\
  map Report.saved_row (Report.save_results top_senders) = top_senders.
Proof.
  unfold Report.save_results. rewrite !map_map. split.
  - rewrite <- (enumerate_fst top_senders 1). apply map_ext; reflexivity.
  - rewrite <- (enumerate_snd top_senders 1) at 2.
    apply map_ext. intros [k [[a n] c]]; reflexivity.
Qed.

Lemma counted_length_le emails : List.length (counted emails) <= List.length emails.
Proof.
  unfold counted. induction emails as [|e es IH]; simpl; [lia|].
  destruct (truthy (from_field_of e)); simpl; lia.
Qed.

Lemma sum_counts_bound emails top_n :
  sum_counts (analyze_senders emails top_n) <= List.length (counted emails).
Proof.
  unfold analyze_senders.
  destruct (slice_to_prefix top_n (sorted_senders emails)) as (k & ->).
  rewrite sum_counts_rows.
  etransitivity; [apply total_count_firstn|].
  rewrite (total_count_perm _ _ (sorted_senders_perm emails)).
  rewrite (inv_total _ _ (collect_inv_holds emails)).
  unfold addresses. rewrite length_map; reflexivity.
Qed.

(** [main] reports nothing exactly when the loaded list is empty.
    Otherwise the table has at most 20 lines, as many as the saved list,
    and the total of the table is at most the number of emails it is
    measured against: the share of the top senders never exceeds the
    whole. *)
Theorem main_report_totals (emails : list email) :
  match Report.main emails with
  | None => emails = []
  | Some (lines, total_from_top, total_emails, saved) =>
      emails <> [] /\
      total_emails = List.length emails /\
      total_from_top <= total_emails /\
      List.length lines <= 20 /\
      List.length saved = List.length lines /\
      map Report.saved_row saved = analyze_senders emails 20
  end.
Proof.
  destruct emails as [|e es]; [reflexivity|].
  set (emails := e :: es). unfold Report.main. fold emails.
  unfold Report.display_results, Report.save_results.
  split; [discriminate|]. split; [reflexivity|]. split.
  - etransitivity; [apply sum_counts_bound | apply counted_length_le].
  - rewrite !length_map, !enumerate_length. split; [|split; [reflexivity|]].
    + unfold analyze_senders. rewrite slice_to_nonneg by lia.
      rewrite length_map, length_firstn. simpl Z.to_nat. lia.
    + rewrite map_map.
      rewrite <- (enumerate_snd (analyze_senders emails 20) 1) at 2.
      apply map_ext. intros [k [[a n] c]]; reflexivity.
Qed.

(* ================================================================= *)
(** * More on the aggregator *)

Lemma fold_tally_counted es d :
  fold_left tally (counted es) d = fold_left tally es d.
Proof.
  revert d; induction es as [|e es IH]; intros d; [reflexivity|].
  unfold counted in *. cbn [filter fold_left].
  destruct (truthy (from_field_of e)) eqn:T.
  - cbn [fold_left]. apply IH.
  - rewrite IH. replace (tally d e) with d; [reflexivity|].
    unfold tally. rewrite T; reflexivity.
Qed.

(** Records without a 'from' key, or with an empty one, do not count: the
    result is the one of the list with those records left out. *)
Theorem analyze_senders_skips_empty (emails : list email) (top_n : Z) :
  analyze_senders (counted emails) top_n = analyze_senders emails top_n.
Proof.
  unfold analyze_senders, sorted_senders, collect.
  rewrite fold_tally_counted; reflexivity.
Qed.

Lemma slice_to_all {A} (n : Z) (l : list A) :
  (Z.of_nat (List.length l) <= n)%Z -> slice_to n l = l.
Proof.
  intros H. rewrite slice_to_nonneg by lia. apply firstn_all2. lia.
Qed.

(** Nothing is lost: when [top_n] is at least the number of distinct
    addresses, the result has a row for each of them and the counts add up
    to the number of records with a non-empty 'from'. *)
Theorem analyze_senders_conserves (emails : list email) (top_n : Z) :
  (Z.of_nat (List.length (distinct (addresses emails))) <= top_n)%Z ->
  sum_counts (analyze_senders emails top_n) = List.length (counted emails) /\
  List.length (analyze_senders emails top_n)
    = List.length (distinct (addresses emails)) /\
  (forall a, In a (map row_email (analyze_senders emails top_n))
             <-> In a (addresses emails)).
Proof.
  intros H. unfold analyze_senders.
  rewrite slice_to_all by (rewrite sorted_senders_length; exact H).
  split; [|split].
  - rewrite sum_counts_rows, (total_count_perm _ _ (sorted_senders_perm emails)).
    rewrite (inv_total _ _ (collect_inv_holds emails)).
    unfold addresses. rewrite length_map; reflexivity.
  - rewrite length_map. apply sorted_senders_length.
  - intros a. rewrite row_email_to_row.
    rewrite <- (inv_keys _ _ (collect_inv_holds emails)).
    split; intros HI; (eapply Permutation_in; [|exact HI]);
      apply Permutation_map;
      [|apply Permutation_sym]; apply sorted_senders_perm.
Qed.

Lemma analyze_senders_conserves_witness :
  sum_counts (analyze_senders scenario 20) = List.length (counted scenario).
Proof.
  pose proof (analyze_senders_conserves scenario 20) as H.
  assert (P : (Z.of_nat (List.length (distinct (addresses scenario))) <= 20)%Z)
    by (vm_compute; discriminate).
  destruct (H P) as (A & _). exact A.
Defined.

(** The top [n] are the first [n] of the top [m], for [0 <= n <= m]. *)
Theorem analyze_senders_prefix (emails : list email) (n m : Z) :
  (0 <= n <= m)%Z ->
  analyze_senders emails n = firstn (Z.to_nat n) (analyze_senders emails m).
Proof.
  intros H. unfold analyze_senders. rewrite !slice_to_nonneg by lia.
  rewrite firstn_map, firstn_firstn.
  replace (Nat.min (Z.to_nat n) (Z.to_nat m)) with (Z.to_nat n) by lia.
  reflexivity.
Qed.

Lemma analyze_senders_prefix_witness :
  analyze_senders scenario 1 = firstn 1 (analyze_senders scenario 2).
Proof.
  pose proof (analyze_senders_prefix scenario 1 2) as H.
  assert (P : (0 <= 1 <= 2)%Z) by lia.
  exact (H P).
Defined.

(** The address is in normal form whatever the input: trimming it or
    lowercasing it again changes nothing. *)
Theorem extract_email_address_normal (from_field : str) :
  strip (extract_email_address from_field) = extract_email_address from_field /\
  lower (extract_email_address from_field) = extract_email_address from_field.
Proof.
  split; [|apply extract_email_address_lowercased].
  assert (N : forall x, strip (lower (strip x)) = lower (strip x)).
  { intros x. rewrite strip_lower. unfold strip at 1.
    rewrite strip_by_idem; reflexivity. }
  unfold extract_email_address.
  destruct (search angle_at from_field); [apply N|].
  destruct (search email_at from_field); apply N.
Qed.

Lemma occurrences_perm a l1 l2 :
  Permutation l1 l2 -> occurrences a l1 = occurrences a l2.
Proof.
  unfold occurrences. induction 1; simpl;
    try destruct (str_eqb a x); try destruct (str_eqb a y); simpl; congruence.
Qed.

Lemma addresses_perm es1 es2 :
  Permutation es1 es2 -> Permutation (addresses es1) (addresses es2).
Proof.
  intros H. unfold addresses, counted. apply Permutation_map.
  induction H; simpl.
  - constructor.
  - destruct (truthy (from_field_of x)); [constructor|]; assumption.
  - destruct (truthy (from_field_of x)), (truthy (from_field_of y));
      try reflexivity. apply perm_swap.
  - etransitivity; eassumption.
Qed.

Lemma distinct_length_le l : List.length (distinct l) <= List.length l.
Proof.
  unfold distinct. induction l as [|x l IH]; simpl; [lia|].
  destruct (in_dec (list_eq_dec ascii_dec) x l); simpl; lia.
Qed.

(** The counts do not depend on the order of the records: in the full
    ranking of a reordered list every address has a row with the same
    count (the name and the place of the row may differ). *)
Theorem counts_order_independent (es1 es2 : list email) (row : sender_row) :
  Permutation es1 es2 ->
  In row (analyze_senders es1 (Z.of_nat (List.length es1))) ->
  exists row',
    In row' (analyze_senders es2 (Z.of_nat (List.length es2))) /\
    row_email row' = row_email row /\ row_count row' = row_count row.
Proof.
  intros P HI. apply in_analyze_senders in HI.
  pose proof (collect_inv_holds es1) as [_ K1 F1 _ _].
  pose proof (collect_inv_holds es2) as [_ K2 F2 _ _].
  destruct (F1 _ _ _ HI) as (Ec & _).
  assert (Ia : In (row_email row) (Dict.keys (collect es2))).
  { apply K2. eapply Permutation_in; [apply addresses_perm; exact P|].
    apply K1. apply (in_map fst) in HI; exact HI. }
  apply in_map_iff in Ia as ([a' [n' c']] & Ea & HI'); simpl in Ea; subst a'.
  destruct (F2 _ _ _ HI') as (Ec' & _).
  exists (row_email row, n', c'). split; [|split; [reflexivity|]].
  - unfold analyze_senders. rewrite slice_to_all.
    + apply in_map_iff. exists (row_email row, (n', c')). split; [reflexivity|].
      eapply Permutation_in; [apply Permutation_sym, sorted_senders_perm|].
      exact HI'.
    + rewrite sorted_senders_length.
      pose proof (distinct_length_le (addresses es2)) as X.
      pose proof (counted_length_le es2) as Y.
      unfold addresses in X at 2. rewrite length_map in X. lia.
  - simpl. rewrite Ec', Ec. symmetry. apply occurrences_perm, addresses_perm, P.
Qed.

Lemma counts_order_independent_witness :
  exists row',
    In row' (analyze_senders (rev scenario) 4) /\
    row_email row' = py "a@x.com" /\ row_count row' = 3.
Proof.
  pose proof (counts_order_independent scenario (rev scenario)
                (py "a@x.com", py "Alice", 3)) as H.
  assert (P1 : Permutation scenario (rev scenario)) by apply Permutation_rev.
  assert (P2 : In (py "a@x.com", py "Alice", 3)
                  (analyze_senders scenario (Z.of_nat (List.length scenario))))
    by (vm_compute; left; reflexivity).
  exact (H P1 P2).
Defined.

(* ================================================================= *)
(** * Selecting the emails to delete *)

Section FilterFacts.
Import DeleteUpdates.
Variable parse : str -> option datetime.
Variable cutoff : datetime.

Lemma fold_select_raised es :
  fold_left (select parse cutoff) es Raised = Raised.
Proof. induction es as [|e es IH]; [reflexivity | exact IH]. Qed.

Lemma select_cases acc e :
  select parse cutoff (Returned acc) e =
  if incomparable parse cutoff e then Raised
  else if selected parse cutoff e then Returned (acc ++ [e])
  else Returned acc.
Proof.
  unfold select, incomparable, selected, dt_lt.
  destruct (in_updates e); simpl; [|reflexivity].
  destruct (parse_email_date parse (date_of e)) as [d|]; [|reflexivity].
  destruct (Bool.eqb (aware d) (aware cutoff)); simpl; [|reflexivity].
  destruct (ticks d <? ticks cutoff)%Z; reflexivity.
Qed.

Lemma fold_select_returned es acc r :
  fold_left (select parse cutoff) es (Returned acc) = Returned r ->
  r = acc ++ filter (selected parse cutoff) es.
Proof.
  revert acc; induction es as [|e es IH]; intros acc; cbn [fold_left filter].
  - intros [= <-]. symmetry; apply app_nil_r.
  - rewrite select_cases.
    destruct (incomparable parse cutoff e).
    + rewrite fold_select_raised. discriminate.
    + destruct (selected parse cutoff e).
      * intros H. apply IH in H. rewrite <- app_assoc in H. exact H.
      * apply IH.
Qed.

Lemma fold_select_raises es acc :
  fold_left (select parse cutoff) es (Returned acc) = Raised <->
  existsb (incomparable parse cutoff) es = true.
Proof.
  revert acc; induction es as [|e es IH]; intros acc; cbn [fold_left existsb].
  - split; discriminate.
  - rewrite select_cases.
    destruct (incomparable parse cutoff e); simpl.
    + rewrite fold_select_raised. tauto.
    + destruct (selected parse cutoff e); apply IH.
Qed.

Lemma selected_spec e :
  selected parse cutoff e = true ->
  in_updates e = true /\
  exists d, parse (date_of e) = Some d /\ aware d = aware cutoff /\
            (ticks d < ticks cutoff)%Z.
Proof.
  unfold selected, parse_email_date. intros H.
  apply andb_true_iff in H as [H1 H2]. split; [exact H1|].
  destruct (parse (date_of e)) as [d|]; [|discriminate].
  apply andb_true_iff in H2 as [H2 H3].
  exists d. split; [reflexivity|]. split.
  - apply Bool.eqb_prop; exact H2.
  - apply Z.ltb_lt; exact H3.
Qed.
End FilterFacts.

(** Whatever the date parser does, when [filter_updates_before_date]
    returns, it returns the emails of the input, in their order, that are
    in Updates and whose date parses to a datetime before the cutoff: an
    email outside Updates, one whose date does not parse, or one dated at
    or after the cutoff is never selected for deletion. *)
Theorem filter_updates_selects
    (parse : str -> option DeleteUpdates.datetime)
    (emails : list DeleteUpdates.message)
    (cutoff : DeleteUpdates.datetime) (r : list DeleteUpdates.message) :
  DeleteUpdates.filter_updates_before_date parse emails cutoff = Returned r ->
  r = filter (DeleteUpdates.selected parse cutoff) emails /\
  (forall e, In e r ->
     In e emails /\ DeleteUpdates.in_updates e = true /\
     exists d, parse (DeleteUpdates.date_of e) = Some d /\
               (DeleteUpdates.ticks d < DeleteUpdates.ticks cutoff)%Z).
Proof.
  intros H. apply fold_select_returned in H. simpl in H. subst r.
  split; [reflexivity|]. intros e He. apply filter_In in He as [He Hs].
  split; [exact He|].
  destruct (selected_spec _ _ _ Hs) as (H1 & d & H2 & _ & H3).
  split; [exact H1|]. exists d; auto.
Qed.

Lemma filter_updates_selects_witness :
  In DeleteUpdates.old_update DeleteUpdates.mailbox /\
  DeleteUpdates.in_updates DeleteUpdates.old_update = true /\
  exists d,
    DeleteUpdates.length_parser
      (DeleteUpdates.date_of DeleteUpdates.old_update) = Some d /\
    (DeleteUpdates.ticks d < DeleteUpdates.ticks DeleteUpdates.naive_cutoff)%Z.
Proof.
  pose proof (filter_updates_selects DeleteUpdates.length_parser
                DeleteUpdates.mailbox DeleteUpdates.naive_cutoff
                [DeleteUpdates.old_update]) as H.
  assert (P : DeleteUpdates.filter_updates_before_date
                DeleteUpdates.length_parser DeleteUpdates.mailbox
                DeleteUpdates.naive_cutoff
              = Returned [DeleteUpdates.old_update])
    by (vm_compute; reflexivity).
  destruct (H P) as (_ & A).
  exact (A DeleteUpdates.old_update (or_introl eq_refl)).
Defined.

(** [filter_updates_before_date] raises exactly when some email in Updates
    has a date that parses to a datetime of the other kind than the cutoff
    (timezone-aware against naive, or naive against aware): the comparison
    of the two is outside the [try], so one such email ends the whole
    call. *)
Theorem filter_updates_raises_iff
    (parse : str -> option DeleteUpdates.datetime)
    (emails : list DeleteUpdates.message) (cutoff : DeleteUpdates.datetime) :
  DeleteUpdates.filter_updates_before_date parse emails cutoff = Raised <->
  exists e d,
    In e emails /\ DeleteUpdates.in_updates e = true /\
    parse (DeleteUpdates.date_of e) = Some d /\
    DeleteUpdates.aware d <> DeleteUpdates.aware cutoff.
Proof.
  unfold DeleteUpdates.filter_updates_before_date.
  rewrite fold_select_raises, existsb_exists. split.
  - intros (e & He & Hi). exists e.
    unfold DeleteUpdates.incomparable, DeleteUpdates.parse_email_date in Hi.
    apply andb_true_iff in Hi as [H1 H2].
    destruct (parse (DeleteUpdates.date_of e)) as [d|]; [|discriminate].
    exists d. repeat split; try assumption.
    apply negb_true_iff, Bool.eqb_false_iff in H2. exact H2.
  - intros (e & d & He & H1 & H2 & H3). exists e. split; [exact He|].
    unfold DeleteUpdates.incomparable, DeleteUpdates.parse_email_date.
    rewrite H1, H2. simpl. apply negb_true_iff, Bool.eqb_false_iff. exact H3.
Qed.

(* ================================================================= *)
(** * Deleting in batches *)

Lemma firstn_plus {A} (a b : nat) (l : list A) :
  firstn (a + b) l = firstn a l ++ firstn b (skipn a l).
Proof.
  revert l; induction a as [|a IH]; intros l; [reflexivity|].
  destruct l as [|x l]; simpl.
  - rewrite firstn_nil; reflexivity.
  - rewrite IH; reflexivity.
Qed.

Lemma enumerate_app {A} (l1 l2 : list A) start :
  Report.enumerate start (l1 ++ l2) =
  Report.enumerate start l1 ++ Report.enumerate (start + List.length l1) l2.
Proof.
  revert start; induction l1 as [|x l1 IH]; intros start; simpl.
  - rewrite Nat.add_0_r; reflexivity.
  - rewrite IH, Nat.add_succ_r; reflexivity.
Qed.

Lemma batch_count_bounds n bs :
  0 < bs ->
  n <= (n + bs - 1) / bs * bs /\
  (forall k, k < (n + bs - 1) / bs -> k * bs < n).
Proof.
  intros Hbs. pose proof (Nat.div_mod_eq (n + bs - 1) bs) as E.
  pose proof (Nat.mod_upper_bound (n + bs - 1) bs) as U.
  set (q := (n + bs - 1) / bs) in *. set (r := (n + bs - 1) mod bs) in *.
  split; [nia|]. intros k Hk. nia.
Qed.

Section BatchFacts.
Import DeleteUpdates.
Variable batchDelete : nat -> list str -> bool.
Variable email_ids : list str.
Variable bs : nat.

Local Abbreviation after := (after_batches batchDelete email_ids bs).
Local Abbreviation batches := (first_batches email_ids bs).
Local Abbreviation accepted := (accepted_ids batchDelete).

Lemma after_S m :
  after (S m) = send_batch batchDelete email_ids bs (after m) (m * bs).
Proof.
  unfold after_batches. rewrite seq_S, map_app, fold_left_app; reflexivity.
Qed.

Lemma sent_send_batch st i :
  sent (send_batch batchDelete email_ids bs st i)
  = sent st ++ [slice i bs email_ids].
Proof.
  unfold send_batch. destruct (batchDelete _ _); reflexivity.
Qed.

Lemma sent_after m : sent (after m) = batches m.
Proof.
  induction m as [|m IH]; [reflexivity|].
  rewrite after_S, sent_send_batch, IH.
  unfold first_batches. rewrite seq_S, map_app; reflexivity.
Qed.

Lemma concat_batches m : List.concat (batches m) = firstn (m * bs) email_ids.
Proof.
  induction m as [|m IH]; [reflexivity|].
  unfold first_batches in *. rewrite seq_S, map_app, concat_app, IH. simpl.
  rewrite app_nil_r, (Nat.add_comm bs), firstn_plus; reflexivity.
Qed.

Lemma counts_after m :
  deleted_count (after m) + failed_count (after m)
  = List.length (List.concat (batches m)) /\
  deleted_count (after m) = accepted (batches m).
Proof.
  induction m as [|m [IH1 IH2]]; [split; reflexivity|].
  rewrite after_S. unfold first_batches in *.
  rewrite seq_S, map_app, concat_app, length_app. cbn [map List.concat].
  rewrite app_nil_r. cbn [Nat.add].
  unfold accepted_ids in *. rewrite enumerate_app, filter_app, map_app, list_sum_app.
  cbn [Report.enumerate filter fst snd Nat.add].
  unfold send_batch. rewrite sent_after. unfold first_batches.
  rewrite !length_map, length_seq.
  destruct (batchDelete m (slice (m * bs) bs email_ids));
    cbn [deleted_count failed_count map list_sum fold_right snd]; split; lia.
Qed.

Lemma batches_sized m :
  0 < bs -> (forall k, k < m -> k * bs < List.length email_ids) ->
  Forall (fun b => 1 <= List.length b <= bs) (batches m).
Proof.
  intros Hbs Hk. unfold first_batches. apply Forall_forall. intros b Hb.
  apply in_map_iff in Hb as (k & <- & Hin). apply in_seq in Hin.
  unfold slice. rewrite length_firstn, length_skipn.
  specialize (Hk k). lia.
Qed.
End BatchFacts.

Lemma delete_emails_batch_partitions_aux
    (batchDelete : nat -> list str -> bool)
    (email_ids : list str) (batch_size : Z) :
  (0 < batch_size)%Z -> email_ids <> [] ->
  exists d,
    DeleteUpdates.delete_emails_batch batchDelete email_ids batch_size false
      = Returned d /\
    List.concat (DeleteUpdates.sent d) = email_ids.
Proof.
  intros Hbs Hne. unfold DeleteUpdates.delete_emails_batch.
  destruct email_ids as [|i0 ids] eqn:Eids; [congruence|]. rewrite <- Eids.
  unfold DeleteUpdates.range0.
  replace (batch_size =? 0)%Z with false by (symmetry; apply Z.eqb_neq; lia).
  replace (batch_size <? 0)%Z with false by (symmetry; apply Z.ltb_ge; lia).
  set (bs := Z.to_nat batch_size). set (n := List.length email_ids).
  assert (Hbs' : 0 < bs) by (unfold bs; lia).
  destruct (batch_count_bounds n bs Hbs') as [Hq Hk].
  exists (DeleteUpdates.after_batches batchDelete email_ids bs
            ((n + bs - 1) / bs)).
  split; [reflexivity|].
  rewrite sent_after, concat_batches. apply firstn_all2; exact Hq.
Qed.

(** With a positive batch size, a live run on a non-empty list sends every
    id to the service exactly once and in order: the batches put end to end
    are the list; no batch is empty or larger than the batch size; every id
    is counted as deleted or as failed; and the count returned is the
    number of ids in the batches that went through. *)
Theorem delete_emails_batch_partitions
    (batchDelete : nat -> list str -> bool)
    (email_ids : list str) (batch_size : Z) :
  (0 < batch_size)%Z -> email_ids <> [] ->
  exists d,
    DeleteUpdates.delete_emails_batch batchDelete email_ids batch_size false
      = Returned d /\
    List.concat (DeleteUpdates.sent d) = email_ids /\
    Forall (fun b => 1 <= List.length b <= Z.to_nat batch_size)
           (DeleteUpdates.sent d) /\
    DeleteUpdates.deleted_count d + DeleteUpdates.failed_count d
      = List.length email_ids /\
    DeleteUpdates.deleted_count d =
      list_sum (map (fun x => List.length (snd x))
                    (filter (fun x => batchDelete (fst x) (snd x))
                            (Report.enumerate 0 (DeleteUpdates.sent d)))).
Proof.
  intros Hbs Hne. unfold DeleteUpdates.delete_emails_batch.
  destruct email_ids as [|i0 ids] eqn:Eids; [congruence|]. rewrite <- Eids.
  unfold DeleteUpdates.range0.
  replace (batch_size =? 0)%Z with false by (symmetry; apply Z.eqb_neq; lia).
  replace (batch_size <? 0)%Z with false by (symmetry; apply Z.ltb_ge; lia).
  set (bs := Z.to_nat batch_size). set (n := List.length email_ids).
  assert (Hbs' : 0 < bs) by (unfold bs; lia).
  destruct (batch_count_bounds n bs Hbs') as [Hq Hk].
  exists (DeleteUpdates.after_batches batchDelete email_ids bs
            ((n + bs - 1) / bs)).
  split; [reflexivity|].
  rewrite sent_after.
  destruct (counts_after batchDelete email_ids bs ((n + bs - 1) / bs))
    as [C1 C2].
  rewrite concat_batches in C1 |- *.
  assert (F : firstn ((n + bs - 1) / bs * bs) email_ids = email_ids)
    by (apply firstn_all2; exact Hq).
  rewrite F in C1 |- *.
  split; [reflexivity|]. split; [apply batches_sized; assumption|].
  split; [exact C1 | exact C2].
Qed.

Lemma delete_emails_batch_partitions_witness :
  exists d,
    DeleteUpdates.delete_emails_batch (fun n _ => Nat.even n)
      (map py ["a"; "b"; "c"; "d"; "e"]%string) 2 false = Returned d /\
    List.concat (DeleteUpdates.sent d) = map py ["a"; "b"; "c"; "d"; "e"]%string.
Proof.
  pose proof (delete_emails_batch_partitions (fun n _ => Nat.even n)
                (map py ["a"; "b"; "c"; "d"; "e"]%string) 2) as H.
  assert (P1 : (0 < 2)%Z) by lia.
  assert (P2 : map py ["a"; "b"; "c"; "d"; "e"]%string <> []) by discriminate.
  destruct (H P1 P2) as (d & A & B & _). exists d. split; [exact A | exact B].
Defined.

(** The service is called only on a live run, on a non-empty list, with a
    positive batch size: an empty list, a dry run or a negative batch size
    sends nothing and returns 0. *)
Theorem delete_emails_batch_calls_iff
    (batchDelete : nat -> list str -> bool)
    (email_ids : list str) (batch_size : Z) (dry_run : bool)
    (d : DeleteUpdates.deletion) :
  DeleteUpdates.delete_emails_batch batchDelete email_ids batch_size dry_run
    = Returned d ->
  (DeleteUpdates.sent d <> [] <->
   email_ids <> [] /\ dry_run = false /\ (0 < batch_size)%Z) /\
  (DeleteUpdates.sent d = [] -> DeleteUpdates.deleted_count d = 0).
Proof.
  intros H.
  destruct (Z.ltb_spec 0 batch_size) as [Hpos | Hneg];
    [destruct email_ids as [|i0 ids] eqn:Eids; [|destruct dry_run eqn:Edry]|].
  - inversion H; subst d. simpl. split; [|reflexivity].
    split; [congruence | intros [X _]; congruence].
  - inversion H; subst d. simpl. split; [|reflexivity].
    split; [congruence | intros (_ & X & _); discriminate].
  - rewrite <- Eids in *.
    assert (Hne : email_ids <> []) by (rewrite Eids; discriminate).
    destruct (delete_emails_batch_partitions_aux batchDelete email_ids
                batch_size Hpos Hne) as (d' & Hd & Hc).
    rewrite Hd in H. inversion H; subst d'. split.
    + split; [auto|]. intros _ E. rewrite E in Hc. simpl in Hc. congruence.
    + intros E. rewrite E in Hc. simpl in Hc. congruence.
  - assert (E : d = DeleteUpdates.nothing_sent).
    { unfold DeleteUpdates.delete_emails_batch, DeleteUpdates.range0 in H.
      destruct email_ids; [congruence|]. destruct dry_run; [congruence|].
      destruct (batch_size =? 0)%Z eqn:E0; [discriminate|].
      apply Z.eqb_neq in E0.
      replace (batch_size <? 0)%Z with true in H
        by (symmetry; apply Z.ltb_lt; lia).
      simpl in H. congruence. }
    subst d. simpl. split; [|reflexivity].
    split; [congruence | intros (_ & _ & X); lia].
Qed.

Lemma delete_emails_batch_calls_iff_witness :
  DeleteUpdates.sent DeleteUpdates.nothing_sent <> [] <->
  map py ["a"; "b"; "c"]%string <> [] /\ true = false /\ (0 < 2)%Z.
Proof.
  pose proof (delete_emails_batch_calls_iff (fun _ _ => true)
                (map py ["a"; "b"; "c"]%string) 2 true
                DeleteUpdates.nothing_sent) as H.
  assert (P : DeleteUpdates.delete_emails_batch (fun _ _ => true)
                (map py ["a"; "b"; "c"]%string) 2 true
              = Returned DeleteUpdates.nothing_sent) by reflexivity.
  destruct (H P) as (A & _). exact A.
Defined.

(* ================================================================= *)
(** * Listing the message ids *)

Section ListingFacts.
Import Fetcher.
Context {msg : Type}.
Implicit Types (acc : list msg) (resp : response msg)
         (later : list (response msg)).

Lemma collected_found acc resp : collected acc resp = acc ++ found_in resp.
Proof.
  destruct resp as [[l|]|]; simpl; try reflexivity;
    symmetry; apply app_nil_r.
Qed.

Lemma all_found_cons resp later :
  all_found (resp :: later) = found_in resp ++ all_found later.
Proof. reflexivity. Qed.

Lemma listing_unlimited max acc resp later :
  limited max = None ->
  forallb (fun r => negb (failed r)) (resp :: later) = true ->
  listing max acc resp later = acc ++ all_found (resp :: later).
Proof.
  intros L. revert acc resp; induction later as [|r rest IH]; intros acc resp H;
    cbn [forallb] in H; apply andb_true_iff in H as [H1 H2];
    (destruct resp as [found|]; [|discriminate]);
    cbn [listing]; rewrite L; fold (collected acc (Page found));
    rewrite collected_found, all_found_cons.
  - unfold all_found; simpl. rewrite app_nil_r; reflexivity.
  - rewrite (IH _ _ H2), app_assoc; reflexivity.
Qed.

Lemma listing_failure max acc resp later :
  limited max = None ->
  existsb failed (resp :: later) = true ->
  listing max acc resp later = [].
Proof.
  intros L. revert acc resp; induction later as [|r rest IH]; intros acc resp H;
    (destruct resp as [found|]; [|reflexivity]);
    cbn [existsb failed orb] in H; cbn [listing]; rewrite L.
  - discriminate.
  - apply IH. exact H.
Qed.

Lemma listing_limit_length max n acc resp later :
  limited max = Some n -> (0 < n)%Z ->
  (Z.of_nat (List.length acc) < n)%Z ->
  List.length (listing max acc resp later) <= Z.to_nat n.
Proof.
  intros L Hn. revert acc resp; induction later as [|r rest IH];
    intros acc resp Hacc;
    (destruct resp as [found|]; [|simpl; lia]);
    cbn [listing]; rewrite L; fold (collected acc (Page found));
    set (messages := collected acc (Page found));
    (destruct (n <=? Z.of_nat (List.length messages))%Z eqn:E;
     [rewrite slice_to_nonneg by lia; rewrite length_firstn; lia|]);
    apply Z.leb_gt in E.
  - lia.
  - apply IH. exact E.
Qed.

Lemma listing_limit max n acc resp later :
  limited max = Some n -> (0 < n)%Z ->
  (Z.of_nat (List.length acc) < n)%Z ->
  forallb (fun r => negb (failed r)) (resp :: later) = true ->
  listing max acc resp later
  = firstn (Z.to_nat n) (acc ++ all_found (resp :: later)).
Proof.
  intros L Hn. revert acc resp; induction later as [|r rest IH];
    intros acc resp Hacc H;
    cbn [forallb] in H; apply andb_true_iff in H as [H1 H2];
    (destruct resp as [found|]; [|discriminate]);
    cbn [listing]; rewrite L; fold (collected acc (Page found));
    rewrite all_found_cons, app_assoc, <- collected_found;
    set (messages := collected acc (Page found));
    (destruct (n <=? Z.of_nat (List.length messages))%Z eqn:E;
     [apply Z.leb_le in E; rewrite slice_to_nonneg by lia;
      rewrite firstn_app;
      replace (Z.to_nat n - List.length messages) with 0 by lia;
      simpl; rewrite app_nil_r; reflexivity|]);
    apply Z.leb_gt in E.
  - unfold all_found; simpl. rewrite app_nil_r.
    symmetry; apply firstn_all2; lia.
  - apply (IH _ _ E H2).
Qed.
End ListingFacts.

(** With a positive limit, [get_all_messages] never returns more messages
    than the limit, whatever the service answers. *)
Theorem get_all_messages_within_limit {msg : Type}
    (resp : Fetcher.response msg) (later : list (Fetcher.response msg))
    (n : Z) :
  (0 < n)%Z ->
  List.length (Fetcher.get_all_messages resp later (Some n)) <= Z.to_nat n.
Proof.
  intros Hn. unfold Fetcher.get_all_messages.
  apply listing_limit_length; [|exact Hn | simpl; lia].
  unfold Fetcher.limited.
  replace (n =? 0)%Z with false by (symmetry; apply Z.eqb_neq; lia).
  reflexivity.
Qed.

Lemma get_all_messages_within_limit_witness :
  List.length (Fetcher.get_all_messages (Fetcher.Page (Some [1; 2; 3]))
                 [Fetcher.HttpError] (Some 2%Z)) <= 2.
Proof.
  pose proof (get_all_messages_within_limit (Fetcher.Page (Some [1; 2; 3]))
                [Fetcher.HttpError] 2) as H.
  assert (P : (0 < 2)%Z) by lia.
  exact (H P).
Defined.

(** When no request fails: without a limit ([None], or 0, which counts as
    no limit) the result is every message of every page, in order; with a
    positive limit it is the first [max_results] of them; with a negative
    one, the first page cut by the slice and nothing more. *)
Theorem get_all_messages_complete {msg : Type}
    (resp : Fetcher.response msg) (later : list (Fetcher.response msg))
    (max_results : option Z) :
  forallb (fun r => negb (Fetcher.failed r)) (resp :: later) = true ->
  Fetcher.get_all_messages resp later max_results =
  match max_results with
  | None => Fetcher.all_found (resp :: later)
  | Some n =>
      if (n =? 0)%Z then Fetcher.all_found (resp :: later)
      else if (0 <? n)%Z
           then firstn (Z.to_nat n) (Fetcher.all_found (resp :: later))
           else slice_to n (Fetcher.found_in resp)
  end.
Proof.
  intros H. unfold Fetcher.get_all_messages.
  destruct max_results as [n|].
  - destruct (n =? 0)%Z eqn:E0.
    + apply (listing_unlimited (Some n) [] resp later); [|exact H].
      unfold Fetcher.limited; rewrite E0; reflexivity.
    + assert (L : Fetcher.limited (Some n) = Some n)
        by (unfold Fetcher.limited; rewrite E0; reflexivity).
      apply Z.eqb_neq in E0. destruct (0 <? n)%Z eqn:Ep.
      * apply Z.ltb_lt in Ep.
        apply (listing_limit (Some n) n [] resp later L Ep); [simpl; lia | exact H].
      * apply Z.ltb_ge in Ep. cbn [forallb] in H.
        apply andb_true_iff in H as [H1 _].
        destruct resp as [found|]; [|discriminate].
        destruct later; cbn [Fetcher.listing]; rewrite L;
          fold (Fetcher.collected [] (Fetcher.Page found));
          rewrite collected_found; cbn [app];
          (replace (n <=? Z.of_nat (List.length
                      (Fetcher.found_in (Fetcher.Page found))))%Z with true
             by (symmetry; apply Z.leb_le; lia)); reflexivity.
  - apply (listing_unlimited None [] resp later); [reflexivity | exact H].
Qed.

Lemma get_all_messages_complete_witness :
  Fetcher.get_all_messages (Fetcher.Page (Some [1; 2; 3]))
    [Fetcher.Page None; Fetcher.Page (Some [4; 5])] (Some 0%Z)
  = [1; 2; 3; 4; 5].
Proof.
  pose proof (get_all_messages_complete (Fetcher.Page (Some [1; 2; 3]))
                [Fetcher.Page None; Fetcher.Page (Some [4; 5])] (Some 0%Z))
    as H.
  assert (P : forallb (fun r => negb (Fetcher.failed r))
                (Fetcher.Page (Some [1; 2; 3])
                 :: [Fetcher.Page None; Fetcher.Page (Some [4; 5])]) = true)
    by reflexivity.
  exact (H P).
Defined.

(** Without a limit, one failed request loses everything: if any request
    of the listing raises [HttpError], the result is the empty list, the
    messages of the pages fetched before it included. *)
Theorem get_all_messages_failure_loses_all {msg : Type}
    (resp : Fetcher.response msg) (later : list (Fetcher.response msg))
    (max_results : option Z) :
  Fetcher.limited max_results = None ->
  existsb Fetcher.failed (resp :: later) = true ->
  Fetcher.get_all_messages resp later max_results = [].
Proof.
  intros L H. apply listing_failure; assumption.
Qed.

Lemma get_all_messages_failure_loses_all_witness :
  Fetcher.get_all_messages (Fetcher.Page (Some [1; 2; 3]))
    [Fetcher.Page (Some [4]); Fetcher.HttpError] None = [].
Proof.
  pose proof (get_all_messages_failure_loses_all (Fetcher.Page (Some [1; 2; 3]))
                [Fetcher.Page (Some [4]); Fetcher.HttpError] None) as H.
  assert (P1 : Fetcher.limited (@None Z) = None) by reflexivity.
  assert (P2 : existsb Fetcher.failed
                 (Fetcher.Page (Some [1; 2; 3])
                  :: [Fetcher.Page (Some [4]); Fetcher.HttpError]) = true)
    by reflexivity.
  exact (H P1 P2).
Defined.
